(** * Mondrian-style image abstraction: a shallow embedding of
    [to_Mondrian_style.py] and the properties of its partitioning,
    recolouring and border-rendering passes.

    Conventions of the embedding.
    - Python integers are [Z].
    - Python floats are binary64 numbers, with the operations of the
      standard library's [SpecFloat] at precision 53 and maximal exponent
      1024: the quotient [value / grain], the products [grain * round(..)]
      and [white * count] are rounded as the interpreter rounds them, and
      [round] and [int] raise on infinities and NaN as Python's do.  A
      colour mean is the quotient of two integers: the estimator returns it
      as that exact rational [Q], the distance of two means is computed on
      the rationals, and the recolourer rounds the mean to the binary64
      number the interpreter holds ([b64_of_Q]) before it divides by the
      grain.
    - [random.Random] is an arbitrary stream of raw draws together with the
      number of draws consumed so far; [randint a b] maps the next raw draw
      into the inclusive range [a..b], so every value of the range is a
      possible outcome.
    - A PIL image is its size and a pixel function; [getpixel] and
      [putpixel] follow PIL's coordinate check (negative coordinates count
      from the far edge, anything still outside raises [IndexError]).
    - Exceptions are values: every fallible operation runs in a small
      state-and-exception monad, and a raised exception leaves the state as
      it was at the moment of the raise.
    - Pixels are three-channel tuples.  The interpreter's recursion limit,
      which bounds the depth [boxize] can be asked for, is not modelled:
      what is proved of [boxize] holds of the runs that stay within it,
      and what is proved never to raise is proved generation by
      generation. *)

From Stdlib Require Import ZArith QArith Qround Qminmax Qpower List Lia Lqa Bool.
From Stdlib Require Import Permutation.
From Stdlib Require Import SpecFloat.
Import ListNotations.
Open Scope Z_scope.

(** ** Exceptions and the state-and-exception monad *)

Inductive Exn : Type :=
| ZeroDivisionError
| IndexError
| ValueError
| OverflowError.

Inductive Outcome (A : Type) : Type :=
| Ok (a : A)
| Raise (e : Exn).
Arguments Ok {A} a.
Arguments Raise {A} e.

Definition M (S A : Type) : Type := S -> Outcome A * S.

Definition ret {S A} (a : A) : M S A := fun s => (Ok a, s).

Definition raise {S A} (e : Exn) : M S A := fun s => (Raise e, s).

Definition bind {S A B} (c : M S A) (k : A -> M S B) : M S B :=
  fun s =>
    match c s with
    | (Ok a, s') => k a s'
    | (Raise e, s') => (Raise e, s')
    end.

Definition lift {S A} (o : Outcome A) : M S A := fun s => (o, s).

(** Sequencing of fallible computations that touch no state. *)
Definition obind {A B} (o : Outcome A) (k : A -> Outcome B) : Outcome B :=
  match o with
  | Ok a => k a
  | Raise e => Raise e
  end.

Declare Scope py_scope.
Delimit Scope py_scope with py.
Notation "x <- c ;; k" := (bind c (fun x => k))
  (at level 100, c at next level, right associativity) : py_scope.
Notation "c ;;; k" := (bind c (fun _ => k))
  (at level 100, right associativity) : py_scope.
Notation "x <~ o ;; k" := (obind o (fun x => k))
  (at level 100, o at next level, right associativity) : py_scope.
Open Scope py_scope.

(** [for a in l: body a], collecting the values of the body. *)
Fixpoint mapM {S A B} (f : A -> M S B) (l : list A) : M S (list B) :=
  match l with
  | [] => ret []
  | a :: l' => b <- f a ;; bs <- mapM f l' ;; ret (b :: bs)
  end.

(** [for a in l: body a], for a body run for its effect only. *)
Fixpoint forM_ {S A} (f : A -> M S unit) (l : list A) : M S unit :=
  match l with
  | [] => ret tt
  | a :: l' => f a ;;; forM_ f l'
  end.

(** Python's [range(a, b)] and [range(n)]. *)
Definition range2 (a b : Z) : list Z :=
  map (fun i => a + Z.of_nat i) (seq 0 (Z.to_nat (b - a))).

Definition range (n : Z) : list Z := range2 0 n.

Definition len {A} (l : list A) : Z := Z.of_nat (length l).

Definition sum (l : list Z) : Z := fold_left Z.add l 0.

(** ** The random source *)

Record Rng : Type := mkRng {
  draws : nat -> Z;   (* the raw stream                        *)
  used : nat          (* how many raw draws have been consumed *)
}.

(** [rng.randint(a, b)]: an integer of the inclusive range, [ValueError]
    on an empty range. *)
Definition randint (a b : Z) : M Rng Z :=
  fun r =>
    if b <? a then raise ValueError r
    else (Ok (a + draws r (used r) mod (b - a + 1)),
          mkRng (draws r) (S (used r))).

(** A random source that replays a finite script, then zeros. *)
Definition scripted (l : list Z) : Rng := mkRng (fun n => nth n l 0) 0.

(** ** The pixel buffer *)

Definition Pixel : Type := (Z * Z * Z)%type.

Record Image : Type := mkImage {
  width : Z;
  height : Z;
  pixels : Z -> Z -> Pixel
}.

(** PIL's coordinate check, shared by [getpixel] and [putpixel]. *)
Definition locate (img : Image) (xy : Z * Z) : option (Z * Z) :=
  let '(x, y) := xy in
  let x := if x <? 0 then width img + x else x in
  let y := if y <? 0 then height img + y else y in
  if (x <? 0) || (width img <=? x) || (y <? 0) || (height img <=? y)
  then None else Some (x, y).

Definition getpixel (img : Image) (xy : Z * Z) : Outcome Pixel :=
  match locate img xy with
  | Some (x, y) => Ok (pixels img x y)
  | None => Raise IndexError
  end.

Definition putpixel (xy : Z * Z) (color : Pixel) : M Image unit :=
  fun img =>
    match locate img xy with
    | Some (x, y) =>
        (Ok tt,
         mkImage (width img) (height img)
           (fun x' y' =>
              if (x' =? x) && (y' =? y) then color else pixels img x' y'))
    | None => raise IndexError img
    end.

(** ** Boxes *)

(* A Square box, identified by its corner coordinates *)
Record Box : Type := mkBox {
  Top : Z;
  Bottom : Z;
  Left : Z;
  Right : Z
}.

(** [box._replace(Field=v)] *)
Definition replace_Top (v : Z) (b : Box) : Box :=
  mkBox v (Bottom b) (Left b) (Right b).
Definition replace_Bottom (v : Z) (b : Box) : Box :=
  mkBox (Top b) v (Left b) (Right b).
Definition replace_Left (v : Z) (b : Box) : Box :=
  mkBox (Top b) (Bottom b) v (Right b).
Definition replace_Right (v : Z) (b : Box) : Box :=
  mkBox (Top b) (Bottom b) (Left b) v.

(** ** Sampling *)

(* Maximum points that will be sampled in a box. *)
Definition maxSample : Z := 100.

(* Computes number of points to sample in a box. *)
Definition sampler (box : Box) : Z :=
  let width := Z.abs (Left box - Right box + 1) in
  let height := Z.abs (Top box - Bottom box + 1) in
  Z.min (width * height) maxSample.

Definition Color : Type := (Q * Q * Q)%type.

(** Python's [a / b] on integers: the quotient as a float, or
    [ZeroDivisionError]. *)
Definition true_div (a b : Z) : Outcome Q :=
  if b =? 0 then Raise ZeroDivisionError
  else Ok (inject_Z a / inject_Z b)%Q.

Definition red_of (p : Pixel) : Z := fst (fst p).
Definition green_of (p : Pixel) : Z := snd (fst p).
Definition blue_of (p : Pixel) : Z := snd p.

(** One turn of the sampling loop of [average]. *)
Definition sample_point (img : Image) (minx maxx miny maxy : Z) (i : Z)
  : M Rng Pixel :=
  x <- randint minx maxx ;;
  y <- randint miny maxy ;;
  lift (getpixel img (x, y)).

(** The mean of a sample, channel by channel. *)
Definition mean_color (sample : list Pixel) : Outcome Color :=
  red <~ true_div (sum (map red_of sample)) (len sample) ;;
  green <~ true_div (sum (map green_of sample)) (len sample) ;;
  blue <~ true_div (sum (map blue_of sample)) (len sample) ;;
  Ok (red, green, blue).

(* Compute the "average" color of a box, by sampling random points in it. *)
Definition average (img : Image) (box : Box) : M Rng Color :=
  let sampleSize := sampler box in
  let minx := Z.min (Left box) (Right box) in
  let maxx := Z.max (Left box) (Right box) in
  let miny := Z.min (Top box) (Bottom box) in
  let maxy := Z.max (Top box) (Bottom box) in
  sample <- mapM (sample_point img minx maxx miny maxy) (range sampleSize) ;;
  lift (mean_color sample).

(** ** Splitting *)

(* Computes the "distance" between 2 colors. *)
Definition distance (color1 color2 : Color) : Q :=
  let '(r1, g1, b1) := color1 in
  let '(r2, g2, b2) := color2 in
  ((r1 - r2) ^ 2 + (g1 - g2) ^ 2 + (b1 - b2) ^ 2)%Q.

(** One turn of the loop that constructs random vertical cuts. *)
Definition vertical_cut (margin minx maxx : Z) (box : Box) (i : Z)
  : M Rng (Box * Box) :=
  cut <- randint (minx + margin) (maxx + 1 - margin) ;;
  let box1 := replace_Right cut box in
  let box2 := replace_Left (cut + 1) box in
  ret (box1, box2).

(** One turn of the loop that constructs random horizontal cuts. *)
Definition horizontal_cut (margin miny maxy : Z) (box : Box) (i : Z)
  : M Rng (Box * Box) :=
  cut <- randint (miny + margin) (maxy + 1 - margin) ;;
  let box1 := replace_Top cut box in
  let box2 := replace_Bottom (cut + 1) box in
  ret (box1, box2).

(** The key of the [max] in [split]: the colour distance between the
    sampled averages of the two halves, first half first. *)
Definition split_key (img : Image) (pair : Box * Box) : M Rng Q :=
  c1 <- average img (fst pair) ;;
  c2 <- average img (snd pair) ;;
  ret (distance c1 c2).

(** The scan of Python's [max(iterable, key=...)] after its first item:
    the key of every item is computed, and an item replaces the current
    best only when its key is strictly greater. *)
Fixpoint max_scan {S A} (key : A -> M S Q) (best : A) (bestval : Q)
  (rest : list A) : M S A :=
  match rest with
  | [] => ret best
  | item :: rest' =>
      val <- key item ;;
      if Qlt_le_dec bestval val then max_scan key item val rest'
      else max_scan key best bestval rest'
  end.

(* Split a box into 2 parts, by attempting random splits and taking the
   split that maximizes color difference between the areas. *)
Definition split (img : Image) (cuts margin : Z) (box : Box)
  : M Rng (option (Box * Box)) :=
  let minx := Z.min (Left box) (Right box) in
  let maxx := Z.max (Left box) (Right box) in
  vertical <-
    (if minx + margin <? maxx - margin
     then mapM (vertical_cut margin minx maxx box) (range cuts)
     else ret []) ;;
  let miny := Z.min (Top box) (Bottom box) in
  let maxy := Z.max (Top box) (Bottom box) in
  horizontal <-
    (if miny + margin <? maxy - margin
     then mapM (horizontal_cut margin miny maxy box) (range cuts)
     else ret []) ;;
  match vertical ++ horizontal with
  | first :: rest =>
      firstval <- split_key img first ;;
      best <- max_scan (split_key img) first firstval rest ;;
      ret (Some best)
  | [] => ret None
  end.

(** ** Building the partition *)

(** The loop of [spawn] from index [i] on: the box at [boxIndex] is
    replaced by its split when there is one, every other box is kept. *)
Fixpoint spawn_from (splitter : Box -> M Rng (option (Box * Box)))
  (boxIndex i : Z) (boxes : list Box) : M Rng (list Box) :=
  match boxes with
  | [] => ret []
  | box :: rest =>
      here <-
        (if i =? boxIndex then
           split_result <- splitter box ;;
           match split_result with
           | None => ret [box]
           | Some (box1, box2) => ret [box1; box2]
           end
         else ret [box]) ;;
      more <- spawn_from splitter boxIndex (i + 1) rest ;;
      ret (here ++ more)
  end.

(* Given a current division of image into boxes, create next generation
   by splitting a random Box from the current Boxes. *)
Definition spawn (splitter : Box -> M Rng (option (Box * Box)))
  (boxes : list Box) : M Rng (list Box) :=
  let count := len boxes in
  boxIndex <- randint 0 (count - 1) ;;
  spawn_from splitter boxIndex 0 boxes.

(** The box that covers the whole image. *)
Definition canvas (img : Image) : Box :=
  mkBox (height img - 1) 0 0 (width img - 1).

(** [fragment(boxes, gen)] with [steps] generations still to run. *)
Fixpoint fragment (splitter : Box -> M Rng (option (Box * Box)))
  (steps : nat) (boxes : list Box) : M Rng (list Box) :=
  match steps with
  | O => ret boxes
  | S steps' =>
      more_boxes <- spawn splitter boxes ;;
      fragment splitter steps' more_boxes
  end.

(* Recursively create boxes that cover the starting image *)
Definition boxize (img : Image) (cuts margin depth : Z) : M Rng (list Box) :=
  let box := canvas img in
  let splitter := fun b => split img cuts margin b in
  fragment splitter (Z.to_nat depth) [box].

(** ** Recolouring *)

(* Measure whiteness (the higher r,g,b, the whiter). *)
Definition whiteness (color : Color) : Q :=
  let '(r, g, b) := color in Qmin (Qmin r g) b.

(** *** Binary64 arithmetic *)

(** A Python float: a binary64 number, as [SpecFloat] describes it (a
    signed zero, a signed infinity, NaN, or sign, mantissa and exponent
    of a finite number). *)
Definition float : Type := spec_float.

Definition prec : Z := 53.
Definition emax : Z := 1024.

(** The product and the quotient of two floats, rounded to nearest, ties
    to even. *)
Definition b64_mul : float -> float -> float := SFmul prec emax.
Definition b64_div : float -> float -> float := SFdiv prec emax.

(** The quotient [a / b] of two integers, [b] positive, rounded once to
    binary64: what Python's [a / b] holds for integers. *)
Definition b64_ratio (a : Z) (b : positive) : float :=
  let rounded (s : bool) (p : positive) :=
    let '(m, e, l) := SFdiv_core_binary prec emax (Zpos p) 0 (Zpos b) 0 in
    binary_round_aux prec emax s m e l in
  match a with
  | Z0 => S754_zero false
  | Zpos p => rounded false p
  | Zneg p => rounded true p
  end.

(** The float the interpreter holds for an exact quotient of integers. *)
Definition b64_of_Q (q : Q) : float := b64_ratio (Qnum q) (Qden q).

(** The conversion of an integer operand to a float: [OverflowError] when
    the integer is too large. *)
Definition float_of_int (n : Z) : Outcome float :=
  match binary_normalize prec emax n 0 false with
  | S754_infinity _ => Raise OverflowError
  | x => Ok x
  end.

Definition signed (s : bool) (n : Z) : Z := if s then - n else n.

(** The integer nearest to [m * 2^e], a tie going to the even one. *)
Definition nearest_even (m : positive) (e : Z) : Z :=
  match e with
  | Zneg d =>
      let q := Zpos m / 2 ^ Zpos d in
      let r := Zpos m mod 2 ^ Zpos d in
      match 2 * r ?= 2 ^ Zpos d with
      | Lt => q
      | Eq => if Z.even q then q else q + 1
      | Gt => q + 1
      end
  | _ => Zpos m * 2 ^ e
  end.

(** The integer part of [m * 2^e]. *)
Definition truncated (m : positive) (e : Z) : Z :=
  match e with
  | Zneg d => Zpos m / 2 ^ Zpos d
  | _ => Zpos m * 2 ^ e
  end.

(** Python's [round(x)] on a float: the nearest integer, a tie going to
    the even neighbour; [OverflowError] on an infinity, [ValueError] on
    NaN. *)
Definition py_round (x : float) : Outcome Z :=
  match x with
  | S754_nan => Raise ValueError
  | S754_infinity _ => Raise OverflowError
  | S754_zero _ => Ok 0
  | S754_finite s m e => Ok (signed s (nearest_even m e))
  end.

(** Python's [int(x)] on a float: truncation towards zero, with the same
    errors. *)
Definition py_int (x : float) : Outcome Z :=
  match x with
  | S754_nan => Raise ValueError
  | S754_infinity _ => Raise OverflowError
  | S754_zero _ => Ok 0
  | S754_finite s m e => Ok (signed s (truncated m e))
  end.

(** Python's [a / b] on floats: [ZeroDivisionError] when [b] is a zero of
    either sign. *)
Definition float_div (a b : float) : Outcome float :=
  match b with
  | S754_zero _ => Raise ZeroDivisionError
  | _ => Ok (b64_div a b)
  end.

(** Python's [a * n] for a float [a] and an integer [n]. *)
Definition float_mul_int (a : float) (n : Z) : Outcome float :=
  f <~ float_of_int n ;;
  Ok (b64_mul a f).

(* Round value to the closest multiple of grain . *)
Definition roundize (value grain : float) : Outcome Z :=
  q <~ float_div value grain ;;
  n <~ py_round q ;;
  product <~ float_mul_int grain n ;;
  value <~ py_int product ;;
  if 255 <? value then Ok 255 else Ok value.

(* Create a simplified RGB color, using restricted palette. *)
Definition contrastize (grain : float) (color : Color) : Outcome Pixel :=
  let '(r, g, b) := color in
  r <~ roundize (b64_of_Q r) grain ;;
  g <~ roundize (b64_of_Q g) grain ;;
  b <~ roundize (b64_of_Q b) grain ;;
  Ok (r, g, b).

(** The image and the random source the passes work on: both are mutable
    objects shared by every call of one run. *)
Definition World : Type := (Image * Rng)%type.

Definition on_rng {A} (c : M Rng A) : M World A :=
  fun w => let (o, r) := c (snd w) in (o, (fst w, r)).

Definition on_image {A} (c : M Image A) : M World A :=
  fun w => let (o, i) := c (fst w) in (o, (i, snd w)).

Definition the_image : M World Image := fun w => (Ok (fst w), w).

Definition pure_white : Pixel := (255, 255, 255).
Definition black : Pixel := (0, 0, 0).

(** The first loop of [colorize], from index [i] on: the colour of every
    box.  The average is sampled for every box, whitened or not. *)
Fixpoint choose_colors (img : Image) (whitened : Z) (contrast : float)
  (i : Z) (boxes : list Box) : M Rng (list (Box * Pixel)) :=
  match boxes with
  | [] => ret []
  | box :: rest =>
      avg_color <- average img box ;;
      color <-
        (if i <? whitened then ret pure_white
         else lift (contrastize contrast avg_color)) ;;
      colors <- choose_colors img whitened contrast (i + 1) rest ;;
      ret ((box, color) :: colors)
  end.

(** The body of the painting loop: the pixel is read, then overwritten. *)
Definition paint_pixel (color : Pixel) (xy : Z * Z) : M Image unit :=
  pixel <- (fun img => (getpixel img xy, img)) ;;
  putpixel xy color.

(** The second loop of [colorize] for one box. *)
Definition paint_box (entry : Box * Pixel) : M Image unit :=
  let (box, color) := entry in
  forM_ (fun x =>
           forM_ (fun y => paint_pixel color (x, y))
                 (range2 (Bottom box) (Top box + 1)))
        (range2 (Left box) (Right box + 1)).

(* Paint each box based on its average color.
   A proportion of the clearest boxes are painted pure white. *)
Definition colorize (white contrast : float) (boxes : list Box)
  : M World unit :=
  let count := len boxes in
  whitened <- lift (product <~ float_mul_int white count ;; py_int product) ;;
  img <- the_image ;;
  colors <- on_rng (choose_colors img whitened contrast 0 boxes) ;;
  on_image (forM_ paint_box colors).

(** ** Borders *)

(** The four strips the generator [borders] yields, one per side. *)
Definition bottom_strip (margin : Z) (box : Box) : list (Z * Z) :=
  flat_map (fun x => map (fun m => (x, Bottom box + m)) (range (margin + 1)))
           (range2 (Left box) (Right box + 1)).

Definition top_strip (margin : Z) (box : Box) : list (Z * Z) :=
  flat_map (fun x => map (fun m => (x, Top box - m)) (range (margin + 1)))
           (range2 (Left box) (Right box + 1)).

Definition left_strip (margin : Z) (box : Box) : list (Z * Z) :=
  flat_map (fun y => map (fun m => (Left box + m, y)) (range (margin + 1)))
           (range2 (Bottom box) (Top box + 1)).

Definition right_strip (margin : Z) (box : Box) : list (Z * Z) :=
  flat_map (fun y => map (fun m => (Right box - m, y)) (range (margin + 1)))
           (range2 (Bottom box) (Top box + 1)).

(** The generator [borders(box)] inside [borderize], as the list of the
    coordinates it yields, in order. *)
Definition borders (width height margin : Z) (box : Box) : list (Z * Z) :=
  if 0 <? margin then
    (if 0 <? Bottom box then bottom_strip margin box else [])
    ++ (if Top box <? height - 1 then top_strip margin box else [])
    ++ (if 0 <? Left box then left_strip margin box else [])
    ++ (if Right box <? width - 1 then right_strip margin box else [])
  else [].

(* Paint the black borders around each Box. *)
Definition borderize (margin : Z) (boxes : list Box) : M Image unit :=
  fun img =>
    let width := width img in
    let height := height img in
    forM_ (fun box =>
             forM_ (fun xy => putpixel xy black)
                   (borders width height margin box))
          boxes img.

(** ** The pipeline *)

(* Utilities to determine adequate black margin width *)
Definition marginWidth (width height : Z) : Z :=
  Z.min width height / 200.

(* Utility to determine adequate minimum box edge *)
Definition minWidth (width height : Z) : Z :=
  let borders := 2 * marginWidth width height in
  let edge := Z.min width height / 10 in
  Z.max edge borders.

(** The three passes of [main], for any configuration. *)
Definition pipeline (cuts edges depth : Z) (white contrast : float)
  (margin : Z)
  : M World unit :=
  image <- the_image ;;
  boxes <- on_rng (boxize image cuts edges depth) ;;
  colorize white contrast boxes ;;;
  on_image (borderize margin boxes).

(** [main] between loading and saving the image, with the margin and the
    minimum edge it derives from the image size. *)
Definition mondrianize (cuts depth : Z) (white contrast : float)
  : M World unit :=
  image <- the_image ;;
  let margin := marginWidth (width image) (height image) in
  let edges := minWidth (width image) (height image) in
  pipeline cuts edges depth white contrast margin.

(** ** Specification-side notions and sample data *)

(** The number of pixels of a box, its bounds taken in either order:
    width times height. *)
Definition area (box : Box) : Z :=
  (Z.abs (Left box - Right box) + 1) * (Z.abs (Top box - Bottom box) + 1).

(** The sample count the specification asks of the colour estimator. *)
Definition spec_sample_count (box : Box) : Z := Z.min (area box) maxSample.

(** A 3x1 image whose three pixels differ. *)
Definition img31 : Image :=
  mkImage 3 1 (fun x y => (10 * x, 20 * x, 30 * x)).

(** The four sides of a box, the strip [borders] yields for each, and
    what it means for a side to lie on the outer edge of a [w] x [h]
    canvas. *)
Inductive Side : Type := BottomSide | TopSide | LeftSide | RightSide.

Definition strip (s : Side) : Z -> Box -> list (Z * Z) :=
  match s with
  | BottomSide => bottom_strip
  | TopSide => top_strip
  | LeftSide => left_strip
  | RightSide => right_strip
  end.

Definition touches (w h : Z) (box : Box) (s : Side) : Prop :=
  match s with
  | BottomSide => Bottom box = 0
  | TopSide => Top box = h - 1
  | LeftSide => Left box = 0
  | RightSide => Right box = w - 1
  end.

(** A 4x4 grey image and its left and right halves. *)
Definition img44 : Image := mkImage 4 4 (fun x y => (90, 90, 90)).
Definition left_half : Box := mkBox 3 0 0 1.
Definition right_half : Box := mkBox 3 0 2 3.

(** A 10x10 image. *)
Definition img1010 : Image := mkImage 10 10 (fun x y => (x, y, 7)).

(** Whether writing at the coordinates of [l] reaches the pixel [(x, y)]
    of [img]. *)
Definition reaches (img : Image) (l : list (Z * Z)) (x y : Z) : bool :=
  existsb (fun xy =>
             match locate img xy with
             | Some (x', y') => (x =? x') && (y =? y')
             | None => false
             end) l.

(** Every coordinate the border renderer writes at, in order. *)
Definition border_coordinates (img : Image) (margin : Z) (boxes : list Box)
  : list (Z * Z) :=
  flat_map (borders (width img) (height img) margin) boxes.




(** The rational a finite float stands for. *)
Definition b64_value (x : float) : Q :=
  match x with
  | S754_finite s m e => (inject_Z (signed s (Zpos m)) * 2 ^ e)%Q
  | _ => 0%Q
  end.

(** A float with the sign [s]: a zero, a finite number or an infinity of
    that sign, not NaN. *)
Definition has_sign (s : bool) (x : float) : Prop :=
  match x with
  | S754_zero s' | S754_infinity s' | S754_finite s' _ _ => s' = s
  | S754_nan => False
  end.

(** A float that is a number: a zero or a finite number. *)
Definition finite_float (x : float) : Prop :=
  match x with
  | S754_zero _ | S754_finite _ _ _ => True
  | _ => False
  end.




(** A 5x1 image and the five one-pixel boxes that cover it. *)
Definition img51 : Image :=
  mkImage 5 1 (fun x y => (10 * x, 20 * x, 30 * x)).

Definition five_boxes : list Box :=
  [mkBox 0 0 0 0; mkBox 0 0 1 1; mkBox 0 0 2 2; mkBox 0 0 3 3;
   mkBox 0 0 4 4].

(** The coordinates the painting loop of [colorize] visits for a box. *)
Definition box_coordinates (box : Box) : list (Z * Z) :=
  flat_map (fun x => map (fun y => (x, y)) (range2 (Bottom box) (Top box + 1)))
           (range2 (Left box) (Right box + 1)).

(** The colour a pixel ends with when the entries of [colors] are painted
    in order over an image of the size of [img]: that of the last entry
    whose box reaches it, and [prior] when there is none. *)
Fixpoint last_writer (img : Image) (colors : list (Box * Pixel)) (x y : Z)
  (prior : Pixel) : Pixel :=
  match colors with
  | [] => prior
  | (box, color) :: rest =>
      last_writer img rest x y
        (if reaches img (box_coordinates box) x y then color else prior)
  end.

(** Three one-pixel boxes that cover the 3x1 image. *)
Definition pixel_boxes : list Box :=
  [mkBox 0 0 0 0; mkBox 0 0 1 1; mkBox 0 0 2 2].

(** Two buffers with the same content: the same size and the same pixel
    at every coordinate of the buffer. *)
Definition same_pixels (i1 i2 : Image) : Prop :=
  width i1 = width i2 /\ height i1 = height i2 /\
  forall x y, 0 <= x < width i1 -> 0 <= y < height i1 ->
              pixels i1 x y = pixels i2 x y.

(** Two random sources in the same state: the same draws from now on. *)
Definition same_draws (r1 r2 : Rng) : Prop :=
  forall n, draws r1 (used r1 + n)%nat = draws r2 (used r2 + n)%nat.

Definition same_world (w1 w2 : World) : Prop :=
  same_pixels (fst w1) (fst w2) /\ same_draws (snd w1) (snd w2).

(** Two computations agree when, from related states, they end with the
    same outcome (the same value or the same exception) in related
    states. *)
Definition agree {S A} (R : S -> S -> Prop) (c1 c2 : M S A) : Prop :=
  forall s1 s2,
    R s1 s2 ->
    fst (c1 s1) = fst (c2 s2) /\ R (snd (c1 s1)) (snd (c2 s2)).

(** The 3x1 image again, with other values outside the buffer, and a
    random source that has already consumed two draws. *)
Definition img31_padded : Image :=
  mkImage 3 1 (fun x y =>
                 if (0 <=? x) && (x <? 3) && (y =? 0)
                 then (10 * x, 20 * x, 30 * x) else (1, 1, 1)).

Definition replay (l : list Z) : Rng := mkRng (fun n => nth (n - 2) l 0) 2.

(** ** Partitions *)

(** The pixels of a box, as the painting loops enumerate them. *)
Definition in_box (box : Box) (x y : Z) : Prop :=
  Left box <= x <= Right box /\ Bottom box <= y <= Top box.

Definition in_boxb (box : Box) (x y : Z) : bool :=
  (Left box <=? x) && (x <=? Right box) &&
  (Bottom box <=? y) && (y <=? Top box).

(** A box of positive area: its bounds are in order on both axes. *)
Definition nonempty (box : Box) : Prop :=
  Left box <= Right box /\ Bottom box <= Top box.

(** Every bound of the box is a coordinate of the canvas. *)
Definition within_canvas (img : Image) (box : Box) : Prop :=
  0 <= Left box <= width img - 1 /\ 0 <= Right box <= width img - 1 /\
  0 <= Bottom box <= height img - 1 /\ 0 <= Top box <= height img - 1.

Definition on_canvas (img : Image) (x y : Z) : Prop :=
  0 <= x <= width img - 1 /\ 0 <= y <= height img - 1.

(** A valid partition of the canvas: the bounds of every box lie on the
    canvas, the boxes together cover exactly the canvas, and no pixel
    belongs to two boxes of the sequence. *)
Definition valid_partition (img : Image) (boxes : list Box) : Prop :=
  Forall (within_canvas img) boxes /\
  (forall x y,
      on_canvas img x y <-> exists box, In box boxes /\ in_box box x y) /\
  (forall i j b1 b2 x y,
      (i < j)%nat ->
      nth_error boxes i = Some b1 -> nth_error boxes j = Some b2 ->
      ~ (in_box b1 x y /\ in_box b2 x y)).

(** The boxes the builder works with: ordered bounds, on the canvas. *)
Definition sound_box (img : Image) (box : Box) : Prop :=
  nonempty box /\ within_canvas img box.

(** The two halves exactly partition the box: together they are the box,
    they share no pixel, and each has positive area. *)
Definition exact_split (box box1 box2 : Box) : Prop :=
  (forall x y, in_box box x y <-> in_box box1 x y \/ in_box box2 x y) /\
  (forall x y, ~ (in_box box1 x y /\ in_box box2 x y)) /\
  nonempty box1 /\ nonempty box2.

(** The candidate pairs of [split]: a cut position of the range the code
    draws from, on an axis that passes the margin test. *)
Definition is_cut (margin : Z) (box : Box) (pair : Box * Box) : Prop :=
  (exists cut,
      Z.min (Left box) (Right box) + margin
      < Z.max (Left box) (Right box) - margin /\
      Z.min (Left box) (Right box) + margin <= cut
      <= Z.max (Left box) (Right box) + 1 - margin /\
      pair = (replace_Right cut box, replace_Left (cut + 1) box)) \/
  (exists cut,
      Z.min (Top box) (Bottom box) + margin
      < Z.max (Top box) (Bottom box) - margin /\
      Z.min (Top box) (Bottom box) + margin <= cut
      <= Z.max (Top box) (Bottom box) + 1 - margin /\
      pair = (replace_Top cut box, replace_Bottom (cut + 1) box)).

(** How many boxes of the sequence contain a pixel. *)
Definition cover_count (boxes : list Box) (x y : Z) : nat :=
  length (filter (fun b => in_boxb b x y) boxes).

(** A 4x1 and a 6x1 image. *)
Definition img41 : Image := mkImage 4 1 (fun x y => (x, x, x)).
Definition img61 : Image := mkImage 6 1 (fun x y => (x, 2 * x, 3 * x)).

(** ** Channel ranges *)

(** Every channel of a pixel, of a colour, of every pixel of a buffer lies
    between [lo] and [hi]. *)
Definition channels_within (lo hi : Z) (p : Pixel) : Prop :=
  lo <= red_of p <= hi /\ lo <= green_of p <= hi /\ lo <= blue_of p <= hi.

Definition color_within (lo hi : Z) (c : Color) : Prop :=
  let '(r, g, b) := c in
  (inject_Z lo <= r <= inject_Z hi)%Q /\
  (inject_Z lo <= g <= inject_Z hi)%Q /\
  (inject_Z lo <= b <= inject_Z hi)%Q.

Definition image_within (lo hi : Z) (img : Image) : Prop :=
  forall x y, 0 <= x < width img -> 0 <= y < height img ->
              channels_within lo hi (pixels img x y).


(** The margin tests of [split], one per axis. *)
Definition splittable_x (margin : Z) (box : Box) : Prop :=
  Z.min (Left box) (Right box) + margin
  < Z.max (Left box) (Right box) - margin.

Definition splittable_y (margin : Z) (box : Box) : Prop :=
  Z.min (Top box) (Bottom box) + margin
  < Z.max (Top box) (Bottom box) - margin.

(** Extent of a box along each axis, for ordered bounds. *)
Definition box_width (box : Box) : Z := Right box - Left box + 1.
Definition box_height (box : Box) : Z := Top box - Bottom box + 1.

(** A box the builder can work on without raising: ordered bounds on the
    canvas, not two pixels wide, and at least [d] pixels along each
    axis. *)
Definition roomy (img : Image) (d : Z) (box : Box) : Prop :=
  sound_box img box /\ Right box - Left box <> 1 /\
  d <= box_width box /\ d <= box_height box.

(** What the passes keep of a buffer: its size, and, under the condition
    [ranged], channels between 0 and 255. *)
Definition kept (w h : Z) (ranged : Prop) (img : Image) : Prop :=
  width img = w /\ height img = h /\ (ranged -> image_within 0 255 img).

(** A 40x40 image. *)
Definition img4040 : Image := mkImage 40 40 (fun x y => (x, y, x + y)).

(** * Properties *)

(** ** Reasoning in the monad *)

Lemma bind_ok_inv {S A B} (c : M S A) (k : A -> M S B) s b s' :
  bind c k s = (Ok b, s') ->
  exists a s1, c s = (Ok a, s1) /\ k a s1 = (Ok b, s').
Proof.
  unfold bind. destruct (c s) as [[a | e] s1]; intro H.
  - exists a, s1. split; [reflexivity | exact H].
  - discriminate H.
Qed.

Lemma bind_ok_step {S A B} (c : M S A) (k : A -> M S B) s a s1 :
  c s = (Ok a, s1) -> bind c k s = k a s1.
Proof. intro H. unfold bind. rewrite H. reflexivity. Qed.

Lemma bind_raise_step {S A B} (c : M S A) (k : A -> M S B) s e s1 :
  c s = (Raise e, s1) -> bind c k s = (Raise e, s1).
Proof. intro H. unfold bind. rewrite H. reflexivity. Qed.

Lemma lift_ok_inv {S A} (o : Outcome A) (s s' : S) a :
  lift o s = (Ok a, s') -> o = Ok a /\ s' = s.
Proof. unfold lift. intro H. inversion H. split; reflexivity. Qed.

Lemma ret_ok_inv {S A} (a b : A) (s s' : S) :
  ret a s = (Ok b, s') -> b = a /\ s' = s.
Proof. unfold ret. intro H. inversion H. split; reflexivity. Qed.

(** Takes a successful monadic run apart, one bind at a time. *)
Ltac run_inv H :=
  match type of H with
  | bind _ _ _ = (Ok _, _) =>
      let a := fresh "a" in
      let s := fresh "s" in
      let H1 := fresh "Hrun" in
      let H2 := fresh "Hrun" in
      apply bind_ok_inv in H; destruct H as (a & s & H1 & H2)
  | ret _ _ = (Ok _, _) =>
      apply ret_ok_inv in H; destruct H as [? ?]; subst
  | lift _ _ = (Ok _, _) =>
      apply lift_ok_inv in H; destruct H as [? ?]; subst
  end.

Tactic Notation "bind_inv" hyp(H) "as" ident(a) ident(s) ident(H1) :=
  apply bind_ok_inv in H; destruct H as (a & s & H1 & H).

Lemma range2_empty a b : b <= a -> range2 a b = [].
Proof.
  intro H. unfold range2. replace (Z.to_nat (b - a)) with O by lia.
  reflexivity.
Qed.

Lemma in_range2 a b i : In i (range2 a b) <-> a <= i < b.
Proof.
  unfold range2. rewrite in_map_iff. split.
  - intros (n & <- & Hn). apply in_seq in Hn. lia.
  - intro H. exists (Z.to_nat (i - a)). split; [lia |].
    apply in_seq. lia.
Qed.

Lemma length_range2 a b : length (range2 a b) = Z.to_nat (b - a).
Proof. unfold range2. rewrite length_map, length_seq. reflexivity. Qed.

Lemma mapM_length {S A B} (f : A -> M S B) l :
  forall s bs s', mapM f l s = (Ok bs, s') -> length bs = length l.
Proof.
  induction l as [| a l IH]; simpl; intros s bs s' H.
  - run_inv H. reflexivity.
  - run_inv H. run_inv Hrun0. run_inv Hrun2. simpl. f_equal. eauto.
Qed.

Lemma mapM_Forall {S A B} (f : A -> M S B) (P : B -> Prop) l :
  (forall a s b s', In a l -> f a s = (Ok b, s') -> P b) ->
  forall s bs s', mapM f l s = (Ok bs, s') -> Forall P bs.
Proof.
  induction l as [| a l IH]; simpl; intros Hf s bs s' H.
  - run_inv H. constructor.
  - run_inv H. run_inv Hrun0. run_inv Hrun2. constructor.
    + eapply Hf; [left; reflexivity | eassumption].
    + eapply IH; [| eassumption]. intros. eapply Hf; [right |]; eassumption.
Qed.

(** ** The random source *)

Lemma randint_ok a b r v r' :
  randint a b r = (Ok v, r') ->
  a <= v <= b /\ draws r' = draws r /\ used r' = S (used r).
Proof.
  unfold randint. destruct (b <? a) eqn:E; intro H; [discriminate |].
  apply Z.ltb_ge in E. inversion H; subst; clear H. simpl.
  pose proof (Z.mod_pos_bound (draws r (used r)) (b - a + 1)).
  repeat split; lia.
Qed.

Lemma randint_total a b r :
  a <= b -> exists v, randint a b r = (Ok v, mkRng (draws r) (S (used r))).
Proof.
  intro H. unfold randint. destruct (b <? a) eqn:E.
  - apply Z.ltb_lt in E. lia.
  - eexists. reflexivity.
Qed.

Lemma randint_eval a b r :
  a <= b ->
  randint a b r =
  (Ok (a + draws r (used r) mod (b - a + 1)), mkRng (draws r) (S (used r))).
Proof.
  intro H. unfold randint. destruct (b <? a) eqn:E; [| reflexivity].
  apply Z.ltb_lt in E. lia.
Qed.

Lemma randint_point a r :
  randint a a r = (Ok a, mkRng (draws r) (S (used r))).
Proof.
  rewrite randint_eval by lia. replace (a - a + 1) with 1 by lia.
  rewrite Z.mod_1_r, Z.add_0_r. reflexivity.
Qed.

(** Every value of the range is the outcome of [randint] for some draw. *)
Lemma randint_any a b v n :
  a <= v <= b ->
  randint a b (mkRng (fun _ => v - a) n) = (Ok v, mkRng (fun _ => v - a) (S n)).
Proof.
  intro H. unfold randint. destruct (b <? a) eqn:E.
  - apply Z.ltb_lt in E. lia.
  - simpl. rewrite Z.mod_small by lia. do 2 f_equal. lia.
Qed.

(** ** The pixel buffer *)

Lemma locate_inside img x y :
  0 <= x < width img -> 0 <= y < height img ->
  locate img (x, y) = Some (x, y).
Proof.
  intros Hx Hy. unfold locate.
  destruct (x <? 0) eqn:E1; [apply Z.ltb_lt in E1; lia |].
  destruct (y <? 0) eqn:E2; [apply Z.ltb_lt in E2; lia |].
  rewrite E1, E2.
  destruct (width img <=? x) eqn:E3; [apply Z.leb_le in E3; lia |].
  destruct (height img <=? y) eqn:E4; [apply Z.leb_le in E4; lia |].
  reflexivity.
Qed.

(** Whatever coordinates are given, a located pixel is inside the image. *)
Lemma locate_some img xy x y :
  locate img xy = Some (x, y) -> 0 <= x < width img /\ 0 <= y < height img.
Proof.
  destruct xy as [x0 y0]. unfold locate.
  set (x1 := if x0 <? 0 then width img + x0 else x0).
  set (y1 := if y0 <? 0 then height img + y0 else y0).
  destruct (x1 <? 0) eqn:E1; [discriminate |].
  destruct (width img <=? x1) eqn:E2; [discriminate |].
  destruct (y1 <? 0) eqn:E3; [discriminate |].
  destruct (height img <=? y1) eqn:E4; [discriminate |].
  simpl. intro H. inversion H; subst.
  apply Z.ltb_ge in E1, E3. apply Z.leb_gt in E2, E4. lia.
Qed.

Lemma getpixel_inside img x y :
  0 <= x < width img -> 0 <= y < height img ->
  getpixel img (x, y) = Ok (pixels img x y).
Proof.
  intros Hx Hy. unfold getpixel. rewrite locate_inside by assumption.
  reflexivity.
Qed.

(** ** The colour estimator *)

Lemma sample_point_ok img minx maxx miny maxy i r p r' :
  sample_point img minx maxx miny maxy i r = (Ok p, r') ->
  (exists x y, minx <= x <= maxx /\ miny <= y <= maxy /\
               getpixel img (x, y) = Ok p) /\
  draws r' = draws r /\ used r' = (used r + 2)%nat.
Proof.
  unfold sample_point. intro H.
  run_inv H. run_inv Hrun0. run_inv Hrun2.
  apply randint_ok in Hrun. apply randint_ok in Hrun1.
  destruct Hrun as (? & ? & ?), Hrun1 as (? & ? & ?).
  split; [exists a, a0; auto |]. split; [congruence | lia].
Qed.

Lemma sampling_loop_ok img minx maxx miny maxy l :
  forall r sample r',
    mapM (sample_point img minx maxx miny maxy) l r = (Ok sample, r') ->
    length sample = length l /\
    Forall (fun p => exists x y, minx <= x <= maxx /\ miny <= y <= maxy /\
                                 getpixel img (x, y) = Ok p) sample /\
    draws r' = draws r /\ used r' = (used r + 2 * length l)%nat.
Proof.
  induction l as [| i l IH]; simpl; intros r sample r' H.
  - run_inv H. repeat split; auto.
  - run_inv H. run_inv Hrun0. run_inv Hrun2.
    apply sample_point_ok in Hrun. destruct Hrun as (Hp & Hd & Hu).
    apply IH in Hrun1. destruct Hrun1 as (Hl & Hall & Hd' & Hu').
    simpl. repeat split; [lia | constructor; assumption | congruence | lia].
Qed.

(** What [average] returns when it returns: the mean of exactly
    [sampler box] pixels read inside the bounding box, for two raw draws
    per sample. *)
Lemma average_ok img box r c r' :
  average img box r = (Ok c, r') ->
  exists sample,
    length sample = Z.to_nat (sampler box) /\
    Forall (fun p => exists x y,
                Z.min (Left box) (Right box) <= x <= Z.max (Left box) (Right box) /\
                Z.min (Top box) (Bottom box) <= y <= Z.max (Top box) (Bottom box) /\
                getpixel img (x, y) = Ok p) sample /\
    mean_color sample = Ok c /\
    draws r' = draws r /\
    used r' = (used r + 2 * Z.to_nat (sampler box))%nat.
Proof.
  unfold average. intro H. run_inv H. run_inv Hrun0.
  apply sampling_loop_ok in Hrun. destruct Hrun as (Hl & Hall & Hd & Hu).
  unfold range in Hl, Hu. rewrite length_range2, Z.sub_0_r in Hl, Hu.
  exists a. auto.
Qed.

(** The sample count is the product of the two lengths the helper
    computes, capped: the horizontal one is [|Left - Right + 1|]. *)
Lemma sampler_ordered box :
  Left box < Right box -> Bottom box <= Top box ->
  sampler box =
  Z.min ((Right box - Left box + 1 - 2) * (Top box - Bottom box + 1)) maxSample.
Proof. intros Hx Hy. unfold sampler. f_equal. f_equal; lia. Qed.

Lemma mean_color_single p :
  mean_color [p] =
  Ok (inject_Z (red_of p) / 1, inject_Z (green_of p) / 1,
      inject_Z (blue_of p) / 1)%Q.
Proof. destruct p as [[r g] b]. reflexivity. Qed.

(** A 1x1 box inside the image: one sample, and the pixel itself. *)
Lemma average_single_pixel img x y p r :
  getpixel img (x, y) = Ok p ->
  sampler (mkBox y y x x) = 1 /\
  average img (mkBox y y x x) r =
  (Ok (inject_Z (red_of p) / 1, inject_Z (green_of p) / 1,
       inject_Z (blue_of p) / 1)%Q,
   mkRng (draws r) (S (S (used r)))).
Proof.
  intro Hp.
  assert (Hs : sampler (mkBox y y x x) = 1).
  { unfold sampler. simpl. rewrite !Z.sub_diag. reflexivity. }
  split; [exact Hs |].
  unfold average. rewrite Hs. simpl Left. simpl Right. simpl Top. simpl Bottom.
  rewrite !Z.min_id, !Z.max_id.
  change (range 1) with [0]. unfold mapM, sample_point.
  rewrite (bind_ok_step _ _ r [p] (mkRng (draws r) (S (S (used r))))).
  - unfold lift. rewrite mean_color_single. reflexivity.
  - rewrite (bind_ok_step _ _ r p (mkRng (draws r) (S (S (used r)))));
      [reflexivity |].
    rewrite (bind_ok_step _ _ _ _ _ (randint_point x r)).
    rewrite (bind_ok_step _ _ _ _ _ (randint_point y _)).
    unfold lift. rewrite Hp. reflexivity.
Qed.

(** C10. Whatever the image and the random source, the colour estimator on
    a box whose horizontal extent is two pixels ([Right = Left + 1])
    computes a sample count of zero, draws nothing from the random source
    and raises a division by zero instead of returning a colour. *)
Theorem average_two_wide_div_zero img box rng :
  Right box = Left box + 1 ->
  sampler box = 0 /\
  average img box rng = (Raise ZeroDivisionError, rng).
Proof.
  intro H.
  assert (Hs : sampler box = 0).
  { unfold sampler. rewrite H.
    replace (Left box - (Left box + 1) + 1) with 0 by lia.
    reflexivity. }
  split; [exact Hs |].
  unfold average. rewrite Hs. reflexivity.
Qed.

Lemma average_two_wide_div_zero_witness :
  sampler (mkBox 0 0 0 1) = 0 /\
  average img31 (mkBox 0 0 0 1) (scripted [5; 7]) =
  (Raise ZeroDivisionError, scripted [5; 7]).
Proof. apply (average_two_wide_div_zero img31 (mkBox 0 0 0 1)). reflexivity. Defined.

(** C3, at a box three pixels wide and one high.  The specification asks
    for min(area, 100) = 3 samples; the helper counts 1, so the estimator
    draws one sample (two raw draws) and returns that one pixel. *)
Theorem average_undersamples_wide_box :
  spec_sample_count (mkBox 0 0 0 2) = 3 /\
  sampler (mkBox 0 0 0 2) = 1 /\
  forall rng,
    exists x,
      0 <= x <= 2 /\
      average img31 (mkBox 0 0 0 2) rng =
      (Ok (inject_Z (10 * x) / 1, inject_Z (20 * x) / 1,
           inject_Z (30 * x) / 1)%Q,
       mkRng (draws rng) (used rng + 2)).
Proof.
  split; [reflexivity |]. split; [reflexivity |].
  intro rng. exists (draws rng (used rng) mod 3).
  pose proof (Z.mod_pos_bound (draws rng (used rng)) 3 ltac:(lia)) as Hb.
  split; [lia |].
  unfold average. change (sampler (mkBox 0 0 0 2)) with 1.
  change (range 1) with [0]. simpl Z.min. simpl Z.max.
  unfold mapM, sample_point.
  rewrite (bind_ok_step _ _ rng
             [pixels img31 (draws rng (used rng) mod 3) 0]
             (mkRng (draws rng) (used rng + 2))).
  - unfold lift. rewrite mean_color_single. reflexivity.
  - rewrite (bind_ok_step _ _ rng
               (pixels img31 (draws rng (used rng) mod 3) 0)
               (mkRng (draws rng) (used rng + 2))); [reflexivity |].
    rewrite (bind_ok_step _ _ _ _ _ (randint_eval 0 2 rng ltac:(lia))).
    rewrite (bind_ok_step _ _ _ _ _ (randint_point 0 _)).
    unfold lift. simpl (2 - 0 + 1). rewrite Z.add_0_l.
    rewrite getpixel_inside by (simpl; lia).
    simpl. do 2 f_equal. lia.
Qed.

(** ** The border renderer *)

Lemma in_strip_x (f : Z -> Z) margin a b x y :
  In (x, y)
     (flat_map (fun x => map (fun m => (x, f m)) (range (margin + 1)))
               (range2 a b)) <->
  a <= x < b /\ exists m, 0 <= m <= margin /\ y = f m.
Proof.
  rewrite in_flat_map. split.
  - intros (x0 & Hx & Hin). apply in_range2 in Hx.
    apply in_map_iff in Hin. destruct Hin as (m & Heq & Hm).
    apply in_range2 in Hm. inversion Heq; subst.
    split; [assumption |]. exists m. split; [lia | reflexivity].
  - intros (Hx & m & Hm & ->). exists x. split; [apply in_range2; lia |].
    apply in_map_iff. exists m. split; [reflexivity | apply in_range2; lia].
Qed.

Lemma in_strip_y (f : Z -> Z) margin a b x y :
  In (x, y)
     (flat_map (fun y => map (fun m => (f m, y)) (range (margin + 1)))
               (range2 a b)) <->
  a <= y < b /\ exists m, 0 <= m <= margin /\ x = f m.
Proof.
  rewrite in_flat_map. split.
  - intros (y0 & Hy & Hin). apply in_range2 in Hy.
    apply in_map_iff in Hin. destruct Hin as (m & Heq & Hm).
    apply in_range2 in Hm. inversion Heq; subst.
    split; [assumption |]. exists m. split; [lia | reflexivity].
  - intros (Hy & m & Hm & ->). exists y. split; [apply in_range2; lia |].
    apply in_map_iff. exists m. split; [reflexivity | apply in_range2; lia].
Qed.

Lemma in_bottom_strip margin box x y :
  In (x, y) (bottom_strip margin box) <->
  Left box <= x <= Right box /\ Bottom box <= y <= Bottom box + margin.
Proof.
  unfold bottom_strip. rewrite (in_strip_x (fun m => Bottom box + m)).
  split.
  - intros (Hx & m & Hm & ->). lia.
  - intros (Hx & Hy). split; [lia |]. exists (y - Bottom box). lia.
Qed.

Lemma in_top_strip margin box x y :
  In (x, y) (top_strip margin box) <->
  Left box <= x <= Right box /\ Top box - margin <= y <= Top box.
Proof.
  unfold top_strip. rewrite (in_strip_x (fun m => Top box - m)).
  split.
  - intros (Hx & m & Hm & ->). lia.
  - intros (Hx & Hy). split; [lia |]. exists (Top box - y). lia.
Qed.

Lemma in_left_strip margin box x y :
  In (x, y) (left_strip margin box) <->
  Bottom box <= y <= Top box /\ Left box <= x <= Left box + margin.
Proof.
  unfold left_strip. rewrite (in_strip_y (fun m => Left box + m)).
  split.
  - intros (Hy & m & Hm & ->). lia.
  - intros (Hy & Hx). split; [lia |]. exists (x - Left box). lia.
Qed.

Lemma in_right_strip margin box x y :
  In (x, y) (right_strip margin box) <->
  Bottom box <= y <= Top box /\ Right box - margin <= x <= Right box.
Proof.
  unfold right_strip. rewrite (in_strip_y (fun m => Right box - m)).
  split.
  - intros (Hy & m & Hm & ->). lia.
  - intros (Hy & Hx). split; [lia |]. exists (Right box - x). lia.
Qed.

(** The coordinates [borders] yields: nothing unless the margin is
    positive, and then the strips of the sides that pass their test. *)
Lemma in_borders w h margin box p :
  In p (borders w h margin box) <->
  0 < margin /\
  ((0 < Bottom box /\ In p (bottom_strip margin box)) \/
   (Top box < h - 1 /\ In p (top_strip margin box)) \/
   (0 < Left box /\ In p (left_strip margin box)) \/
   (Right box < w - 1 /\ In p (right_strip margin box))).
Proof.
  unfold borders.
  destruct (0 <? margin) eqn:Em.
  - apply Z.ltb_lt in Em. rewrite !in_app_iff.
    destruct (0 <? Bottom box) eqn:E1; destruct (Top box <? h - 1) eqn:E2;
      destruct (0 <? Left box) eqn:E3; destruct (Right box <? w - 1) eqn:E4;
      rewrite ?Z.ltb_lt, ?Z.ltb_ge in *; simpl; intuition lia.
  - apply Z.ltb_ge in Em. simpl. intuition lia.
Qed.

Lemma forM__app {S A} (f : A -> M S unit) l1 l2 s :
  forM_ f (l1 ++ l2) s = bind (forM_ f l1) (fun _ => forM_ f l2) s.
Proof.
  revert s. induction l1 as [| a l1 IH]; intro s; simpl.
  - reflexivity.
  - unfold bind. destruct (f a s) as [[[] | e] s1]; [| reflexivity].
    rewrite IH. reflexivity.
Qed.

Lemma forM__flat_map {S A B} (g : B -> M S unit) (h : A -> list B) l s :
  forM_ (fun a => forM_ g (h a)) l s = forM_ g (flat_map h l) s.
Proof.
  revert s. induction l as [| a l IH]; intro s; simpl.
  - reflexivity.
  - rewrite forM__app. unfold bind.
    destruct (forM_ g (h a) s) as [[[] | e] s1]; [apply IH | reflexivity].
Qed.

Lemma locate_same_size img img' xy :
  width img' = width img -> height img' = height img ->
  locate img' xy = locate img xy.
Proof. intros Hw Hh. unfold locate. rewrite Hw, Hh. reflexivity. Qed.

Lemma reaches_same_size img img' l x y :
  width img' = width img -> height img' = height img ->
  reaches img' l x y = reaches img l x y.
Proof.
  intros Hw Hh. unfold reaches. induction l as [| xy l IH]; simpl.
  - reflexivity.
  - rewrite (locate_same_size img img') by assumption. rewrite IH.
    reflexivity.
Qed.

(** Writing one colour at a list of coordinates: the size is kept, the
    pixels reached take the colour, the others keep theirs. *)
Lemma write_all_ok color l :
  forall img img',
    forM_ (fun xy => putpixel xy color) l img = (Ok tt, img') ->
    width img' = width img /\ height img' = height img /\
    forall x y,
      pixels img' x y =
      if reaches img l x y then color else pixels img x y.
Proof.
  induction l as [| xy l IH]; simpl; intros img img' H.
  - run_inv H. auto.
  - run_inv H. unfold putpixel in Hrun.
    destruct (locate img xy) as [[x0 y0] |] eqn:El; [| discriminate].
    inversion Hrun; subst; clear Hrun.
    apply IH in Hrun0. simpl in Hrun0. destruct Hrun0 as (Hw & Hh & Hp).
    split; [assumption |]. split; [assumption |].
    intros x y. rewrite Hp.
    rewrite (reaches_same_size img) by reflexivity.
    destruct (reaches img l x y); simpl.
    + rewrite orb_true_r. reflexivity.
    + rewrite orb_false_r. reflexivity.
Qed.

Lemma borderize_unfold margin boxes img :
  borderize margin boxes img =
  forM_ (fun xy => putpixel xy black) (border_coordinates img margin boxes) img.
Proof. unfold borderize, border_coordinates. apply forM__flat_map. Qed.

Lemma borders_no_margin w h margin box :
  margin <= 0 -> borders w h margin box = [].
Proof.
  intro H. unfold borders. destruct (0 <? margin) eqn:E; [| reflexivity].
  apply Z.ltb_lt in E. lia.
Qed.

Lemma border_coordinates_no_margin img margin boxes :
  margin <= 0 -> border_coordinates img margin boxes = [].
Proof.
  intro H. unfold border_coordinates.
  induction boxes as [| b boxes IH]; simpl; [reflexivity |].
  rewrite borders_no_margin by assumption. exact IH.
Qed.

(** C4, as the code has it.  The coordinates yielded for a box are the
    strips of [margin + 1] rows or columns inward from each side that
    passes its test, and only when the margin is positive; with a margin
    of zero or less the renderer writes nothing; and after a successful
    run a pixel is black when one of the yielded coordinates reaches it
    and keeps its colour otherwise. *)
Theorem borderize_strips :
  (forall w h margin box x y,
      In (x, y) (borders w h margin box) <->
      0 < margin /\
      ((0 < Bottom box /\ Left box <= x <= Right box /\
        Bottom box <= y <= Bottom box + margin) \/
       (Top box < h - 1 /\ Left box <= x <= Right box /\
        Top box - margin <= y <= Top box) \/
       (0 < Left box /\ Bottom box <= y <= Top box /\
        Left box <= x <= Left box + margin) \/
       (Right box < w - 1 /\ Bottom box <= y <= Top box /\
        Right box - margin <= x <= Right box))) /\
  (forall margin boxes img,
      margin <= 0 -> borderize margin boxes img = (Ok tt, img)) /\
  (forall margin boxes img img',
      borderize margin boxes img = (Ok tt, img') ->
      width img' = width img /\ height img' = height img /\
      forall x y,
        pixels img' x y =
        if reaches img (border_coordinates img margin boxes) x y
        then black else pixels img x y).
Proof.
  split; [| split].
  - intros w h margin box x y. rewrite in_borders.
    rewrite in_bottom_strip, in_top_strip, in_left_strip, in_right_strip.
    reflexivity.
  - intros margin boxes img H. rewrite borderize_unfold.
    rewrite border_coordinates_no_margin by assumption. reflexivity.
  - intros margin boxes img img' H. rewrite borderize_unfold in H.
    apply write_all_ok in H. exact H.
Qed.

Lemma borderize_strips_witness :
  borderize 0 [left_half; right_half] img44 = (Ok tt, img44) /\
  pixels (snd (borderize 1 [mkBox 9 0 0 4; mkBox 9 0 5 9] img1010)) 4 2
  = black /\
  pixels (snd (borderize 1 [mkBox 9 0 0 4; mkBox 9 0 5 9] img1010)) 0 2
  = (0, 2, 7).
Proof.
  destruct borderize_strips as (_ & Hzero & Hpaint).
  split; [apply Hzero; lia |].
  destruct (Hpaint 1 [mkBox 9 0 0 4; mkBox 9 0 5 9] img1010
              (snd (borderize 1 [mkBox 9 0 0 4; mkBox 9 0 5 9] img1010))
              eq_refl) as (_ & _ & Hp).
  split; rewrite Hp; reflexivity.
Defined.

(** C4 as stated fails: with a margin of zero the renderer yields no
    coordinate, although the right side of the left half of a 4x4 canvas is
    internal, and the pixel (1, 0) on that side keeps its colour. *)
Lemma borderize_zero_margin_paints_nothing :
  Right left_half < width img44 - 1 /\
  borders (width img44) (height img44) 0 left_half = [] /\
  fst (borderize 0 [left_half; right_half] img44) = Ok tt /\
  pixels (snd (borderize 0 [left_half; right_half] img44)) 1 0 <> black.
Proof.
  split; [simpl; lia |]. split; [reflexivity |]. split; [reflexivity |].
  simpl. discriminate.
Qed.

(** C9. No coordinate is yielded on account of a side that lies on the
    outer edge of the canvas: whenever a side of a box touches the canvas
    edge, every coordinate yielded for the box belongs to the strip of
    another side, one that does not touch the edge.  In particular the box
    that covers the whole canvas yields nothing, for any margin, and the
    renderer leaves such an image as it is. *)
Theorem borders_skip_outer_sides :
  (forall w h margin box s p,
      touches w h box s ->
      In p (borders w h margin box) ->
      exists s', s' <> s /\ ~ touches w h box s' /\ In p (strip s' margin box)) /\
  (forall img margin,
      borders (width img) (height img) margin (canvas img) = [] /\
      borderize margin [canvas img] img = (Ok tt, img)).
Proof.
  split.
  - intros w h margin box s p Ht Hin.
    apply in_borders in Hin.
    destruct Hin as (_ & [(Hg & Hs) | [(Hg & Hs) | [(Hg & Hs) | (Hg & Hs)]]]).
    + exists BottomSide. repeat split; [| simpl; lia | exact Hs].
      intros <-. simpl in Ht. lia.
    + exists TopSide. repeat split; [| simpl; lia | exact Hs].
      intros <-. simpl in Ht. lia.
    + exists LeftSide. repeat split; [| simpl; lia | exact Hs].
      intros <-. simpl in Ht. lia.
    + exists RightSide. repeat split; [| simpl; lia | exact Hs].
      intros <-. simpl in Ht. lia.
  - intros img margin.
    assert (Hb : borders (width img) (height img) margin (canvas img) = []).
    { unfold borders, canvas. simpl.
      rewrite !Z.ltb_irrefl. destruct (0 <? margin); reflexivity. }
    split; [exact Hb |].
    unfold borderize. simpl. rewrite Hb. reflexivity.
Qed.

Lemma borders_skip_outer_sides_witness :
  (exists s', s' <> BottomSide /\ ~ touches 10 10 (mkBox 9 0 0 4) s' /\
              In (4, 0) (strip s' 1 (mkBox 9 0 0 4))) /\
  borders 10 10 3 (canvas img1010) = [] /\
  borderize 3 [canvas img1010] img1010 = (Ok tt, img1010).
Proof.
  split.
  - apply (proj1 borders_skip_outer_sides 10 10 1 (mkBox 9 0 0 4)
             BottomSide (4, 0)).
    + reflexivity.
    + vm_compute. left. reflexivity.
  - apply (proj2 borders_skip_outer_sides img1010 3).
Defined.

(** ** Quantization *)

(** *** Rounding on the rationals *)






(** *** Signs through the binary64 operations *)

Lemma shr_1_nonneg mrs : 0 <= shr_m mrs -> 0 <= shr_m (shr_1 mrs).
Proof.
  destruct mrs as [m r s]. simpl.
  destruct m as [| [p | p |] | p]; simpl; lia.
Qed.

Lemma iter_shr_1_nonneg n :
  forall mrs, 0 <= shr_m mrs -> 0 <= shr_m (iter_pos shr_1 n mrs).
Proof.
  induction n as [n IH | n IH |]; intros mrs H; simpl.
  - apply IH, IH, shr_1_nonneg, H.
  - apply IH, IH, H.
  - apply shr_1_nonneg, H.
Qed.

Lemma shr_record_of_loc_m m l : shr_m (shr_record_of_loc m l) = m.
Proof. destruct l as [| []]; reflexivity. Qed.

Lemma shr_fexp_nonneg m e l :
  0 <= m -> 0 <= shr_m (fst (shr_fexp prec emax m e l)).
Proof.
  intro H. unfold shr_fexp, shr.
  destruct (fexp prec emax (Zdigits2 m + e) - e) as [| p | p]; simpl;
    try (rewrite shr_record_of_loc_m; exact H).
  apply iter_shr_1_nonneg. rewrite shr_record_of_loc_m. exact H.
Qed.

Lemma round_nearest_even_nonneg m l : 0 <= m -> 0 <= round_nearest_even m l.
Proof.
  intro H. unfold round_nearest_even.
  destruct l as [| []]; try lia. destruct (Z.even m); lia.
Qed.

(** A rounded non-negative mantissa is a zero, a finite number or an
    infinity of the sign asked for. *)
Lemma binary_round_aux_sign s mx ex lx :
  0 <= mx -> has_sign s (binary_round_aux prec emax s mx ex lx).
Proof.
  intro H. unfold binary_round_aux.
  pose proof (shr_fexp_nonneg mx ex lx H) as H1.
  destruct (shr_fexp prec emax mx ex lx) as [mrs' e'] eqn:E1.
  simpl in H1.
  pose proof (shr_fexp_nonneg
                (round_nearest_even (shr_m mrs') (loc_of_shr_record mrs'))
                e' loc_Exact
                (round_nearest_even_nonneg _ _ H1)) as H2.
  destruct (shr_fexp prec emax
              (round_nearest_even (shr_m mrs') (loc_of_shr_record mrs'))
              e' loc_Exact) as [mrs'' e''] eqn:E2.
  simpl in H2.
  destruct (shr_m mrs'') as [| m | m]; simpl.
  - reflexivity.
  - destruct (e'' <=? _); reflexivity.
  - lia.
Qed.

Lemma div_core_nonneg m1 e1 m2 e2 :
  0 <= fst (fst (SFdiv_core_binary prec emax (Zpos m1) e1 (Zpos m2) e2)).
Proof.
  unfold SFdiv_core_binary.
  set (e' := Z.min _ _). set (m' := match e1 - e2 - e' with Z0 => _ | _ => _ end).
  assert (Hm : 0 <= m').
  { unfold m'. destruct (e1 - e2 - e'); try lia.
    rewrite Z.shiftl_mul_pow2 by lia.
    apply Z.mul_nonneg_nonneg; [lia | apply Z.pow_nonneg; lia]. }
  pose proof (Z.div_eucl_eq m' (Zpos m2) ltac:(lia)) as Heq.
  pose proof (Z.mod_pos_bound m' (Zpos m2) ltac:(lia)) as Hr.
  unfold Z.modulo in Hr.
  assert (Hq : 0 <= m' / Zpos m2) by (apply Z.div_pos; lia).
  unfold Z.div in Hq.
  destruct (Z.div_eucl m' (Zpos m2)) as [q r]. simpl in *. exact Hq.
Qed.

Lemma b64_div_sign sx sy x y :
  has_sign sx x -> has_sign sy y ->
  b64_div x y = S754_nan \/ has_sign (xorb sx sy) (b64_div x y).
Proof.
  intros Hx Hy. unfold b64_div.
  destruct x as [s1 | s1 | | s1 m1 e1]; destruct y as [s2 | s2 | | s2 m2 e2];
    simpl in Hx, Hy; try contradiction; subst; simpl; auto.
  right.
  pose proof (div_core_nonneg m1 e1 m2 e2) as Hq.
  destruct (SFdiv_core_binary prec emax (Zpos m1) e1 (Zpos m2) e2)
    as [[mz ez] lz].
  apply binary_round_aux_sign. exact Hq.
Qed.

Lemma b64_mul_sign sx sy x y :
  has_sign sx x -> has_sign sy y ->
  b64_mul x y = S754_nan \/ has_sign (xorb sx sy) (b64_mul x y).
Proof.
  intros Hx Hy. unfold b64_mul.
  destruct x as [s1 | s1 | | s1 m1 e1]; destruct y as [s2 | s2 | | s2 m2 e2];
    simpl in Hx, Hy; try contradiction; subst; simpl; auto.
  right. apply binary_round_aux_sign. lia.
Qed.

Lemma b64_ratio_sign a b :
  has_sign (a <? 0) (b64_ratio a b).
Proof.
  unfold b64_ratio. destruct a as [| p | p]; [reflexivity | |].
  - pose proof (div_core_nonneg p 0 b 0) as Hq.
    destruct (SFdiv_core_binary prec emax (Zpos p) 0 (Zpos b) 0)
      as [[mz ez] lz].
    apply binary_round_aux_sign. exact Hq.
  - pose proof (div_core_nonneg p 0 b 0) as Hq.
    destruct (SFdiv_core_binary prec emax (Zpos p) 0 (Zpos b) 0)
      as [[mz ez] lz].
    apply binary_round_aux_sign. exact Hq.
Qed.

Lemma b64_of_Q_nonneg q : (0 <= q)%Q -> has_sign false (b64_of_Q q).
Proof.
  intro H. unfold b64_of_Q.
  assert (Hn : 0 <= Qnum q).
  { unfold Qle in H. simpl in H. lia. }
  pose proof (b64_ratio_sign (Qnum q) (Qden q)) as Hs.
  replace (Qnum q <? 0) with false in Hs; [exact Hs |].
  symmetry. apply Z.ltb_ge. exact Hn.
Qed.

Lemma binary_round_sign s m e :
  has_sign s (binary_round prec emax s m e).
Proof.
  unfold binary_round.
  destruct (shl_align m e _) as [mz ez].
  apply binary_round_aux_sign. lia.
Qed.

Lemma float_of_int_sign n f :
  float_of_int n = Ok f -> has_sign (n <? 0) f /\ finite_float f.
Proof.
  unfold float_of_int, binary_normalize. intro H.
  destruct n as [| p | p].
  - inversion H; subst. split; reflexivity.
  - pose proof (binary_round_sign false p 0) as Hs.
    destruct (binary_round prec emax false p 0) eqn:E;
      inversion H; subst; simpl in *; try contradiction; auto.
  - pose proof (binary_round_sign true p 0) as Hs.
    destruct (binary_round prec emax true p 0) eqn:E;
      inversion H; subst; simpl in *; try contradiction; auto.
Qed.

Lemma nearest_even_nonneg m e : 0 <= nearest_even m e.
Proof.
  unfold nearest_even. destruct e as [| p | d].
  - lia.
  - apply Z.mul_nonneg_nonneg; [lia | apply Z.pow_nonneg; lia].
  - assert (Hp : 0 < 2 ^ Zpos d) by (apply Z.pow_pos_nonneg; lia).
    assert (Hq : 0 <= Zpos m / 2 ^ Zpos d) by (apply Z.div_pos; lia).
    destruct (2 * (Zpos m mod 2 ^ Zpos d) ?= 2 ^ Zpos d); try lia.
    destruct (Z.even _); lia.
Qed.

Lemma truncated_nonneg m e : 0 <= truncated m e.
Proof.
  unfold truncated. destruct e as [| p | d].
  - lia.
  - apply Z.mul_nonneg_nonneg; [lia | apply Z.pow_nonneg; lia].
  - assert (Hp : 0 < 2 ^ Zpos d) by (apply Z.pow_pos_nonneg; lia).
    apply Z.div_pos; lia.
Qed.

Lemma py_round_nonneg x n : has_sign false x -> py_round x = Ok n -> 0 <= n.
Proof.
  destruct x as [s | s | | s m e]; simpl; intros Hs H;
    inversion H; subst; try lia.
  simpl. apply nearest_even_nonneg.
Qed.

Lemma py_int_nonneg x n : has_sign false x -> py_int x = Ok n -> 0 <= n.
Proof.
  destruct x as [s | s | | s m e]; simpl; intros Hs H;
    inversion H; subst; try lia.
  simpl. apply truncated_nonneg.
Qed.

Lemma py_round_nan_raises n : py_round S754_nan <> Ok n.
Proof. discriminate. Qed.

(** What [roundize] evaluates, step by step. *)
Lemma roundize_ok value grain z :
  roundize value grain = Ok z ->
  (forall s, grain <> S754_zero s) /\
  exists n f p,
    py_round (b64_div value grain) = Ok n /\
    float_of_int n = Ok f /\
    py_int (b64_mul grain f) = Ok p /\
    z = Z.min 255 p.
Proof.
  unfold roundize, float_div, float_mul_int. intro H.
  assert (Hg : forall s, grain <> S754_zero s).
  { intros s ->. discriminate H. }
  split; [exact Hg |].
  assert (Hd : (match grain with
                | S754_zero _ => Raise ZeroDivisionError
                | _ => Ok (b64_div value grain)
                end) = Ok (b64_div value grain)).
  { destruct grain; try reflexivity. exfalso. eapply Hg. reflexivity. }
  rewrite Hd in H. simpl in H.
  destruct (py_round (b64_div value grain)) as [n | e] eqn:En;
    [| discriminate].
  simpl in H.
  destruct (float_of_int n) as [f | e] eqn:Ef; [| discriminate]. simpl in H.
  destruct (py_int (b64_mul grain f)) as [p | e] eqn:Ep; [| discriminate].
  simpl in H. exists n, f, p.
  split; [reflexivity |]. split; [exact Ef |]. split; [exact Ep |].
  destruct (255 <? p) eqn:E; inversion H; subst.
  - apply Z.ltb_lt in E. lia.
  - apply Z.ltb_ge in E. lia.
Qed.


Lemma roundize_range v g z :
  has_sign false v -> has_sign false g -> roundize v g = Ok z ->
  0 <= z <= 255.
Proof.
  intros Hv Hg H. apply roundize_ok in H.
  destruct H as (_ & n & f & p & Hn & Hf & Hp & ->).
  assert (H0 : 0 <= n).
  { destruct (b64_div_sign false false v g Hv Hg) as [E | Hs].
    - rewrite E in Hn. discriminate Hn.
    - apply (py_round_nonneg _ _ Hs Hn). }
  apply float_of_int_sign in Hf. destruct Hf as (Hf & _).
  replace (n <? 0) with false in Hf by (symmetry; apply Z.ltb_ge; exact H0).
  assert (H1 : 0 <= p).
  { destruct (b64_mul_sign false false g f Hg Hf) as [E | Hs].
    - rewrite E in Hp. discriminate Hp.
    - apply (py_int_nonneg _ _ Hs Hp). }
  lia.
Qed.

Lemma py_round_outcome x :
  x <> S754_nan ->
  (exists n, py_round x = Ok n) \/ py_round x = Raise OverflowError.
Proof.
  intro H. destruct x as [s | s | | s m e]; simpl; eauto. contradiction.
Qed.

Lemma py_int_outcome x :
  x <> S754_nan ->
  (exists n, py_int x = Ok n) \/ py_int x = Raise OverflowError.
Proof.
  intro H. destruct x as [s | s | | s m e]; simpl; eauto. contradiction.
Qed.

Lemma has_sign_not_nan s x : has_sign s x -> x <> S754_nan.
Proof. intros H ->. exact H. Qed.

Lemma b64_div_finite_not_nan x s m e :
  x <> S754_nan -> b64_div x (S754_finite s m e) <> S754_nan.
Proof.
  intro Hx. unfold b64_div.
  destruct x as [sx | sx | | sx mx ex]; simpl; try discriminate;
    try contradiction.
  pose proof (div_core_nonneg mx ex m e) as Hq.
  destruct (SFdiv_core_binary prec emax (Zpos mx) ex (Zpos m) e)
    as [[mz ez] lz].
  apply (has_sign_not_nan (xorb sx s)), binary_round_aux_sign. exact Hq.
Qed.

Lemma b64_mul_finite_not_nan x y :
  finite_float x -> finite_float y -> b64_mul x y <> S754_nan.
Proof.
  intros Hx Hy. unfold b64_mul.
  destruct x as [sx | sx | | sx mx ex]; destruct y as [sy | sy | | sy my ey];
    simpl in *; try contradiction; try discriminate.
  apply (has_sign_not_nan (xorb sx sy)), binary_round_aux_sign. lia.
Qed.

Lemma float_of_int_outcome n :
  (exists f, float_of_int n = Ok f) \/ float_of_int n = Raise OverflowError.
Proof.
  unfold float_of_int. destruct (binary_normalize prec emax n 0 false); eauto.
Qed.

(** With a finite grain that is not a zero, a value that is a number is
    quantized or overflows: no other exception. *)
Lemma roundize_outcome v s m e :
  v <> S754_nan ->
  (exists z, roundize v (S754_finite s m e) = Ok z) \/
  roundize v (S754_finite s m e) = Raise OverflowError.
Proof.
  intro Hv. unfold roundize, float_div, float_mul_int. cbn [obind].
  destruct (py_round_outcome _ (b64_div_finite_not_nan v s m e Hv))
    as [(n & En) | En]; rewrite En; cbn [obind]; [| auto].
  destruct (float_of_int_outcome n) as [(f & Ef) | Ef]; rewrite Ef;
    cbn [obind]; [| auto].
  apply float_of_int_sign in Ef. destruct Ef as (_ & Hf).
  destruct (py_int_outcome (b64_mul (S754_finite s m e) f))
    as [(p & Ep) | Ep].
  { apply b64_mul_finite_not_nan; [exact I | exact Hf]. }
  - rewrite Ep. cbn [obind]. left. destruct (255 <? p); eauto.
  - rewrite Ep. cbn [obind]. auto.
Qed.

(** *** The integer channel values and grains *)








(** ** The recolourer *)

Lemma choose_colors_ok img whitened contrast boxes :
  forall i rng colors rng',
    choose_colors img whitened contrast i boxes rng = (Ok colors, rng') ->
    map fst colors = boxes /\
    forall j box color,
      nth_error colors j = Some (box, color) ->
      (i + Z.of_nat j < whitened -> color = pure_white) /\
      (whitened <= i + Z.of_nat j ->
       exists avg r1 r2,
         average img box r1 = (Ok avg, r2) /\
         contrastize contrast avg = Ok color).
Proof.
  induction boxes as [| b boxes IH]; simpl; intros i rng colors rng' H.
  - run_inv H. split; [reflexivity |]. intros [| j]; discriminate.
  - bind_inv H as avg s1 Havg. bind_inv H as c s2 Hc.
    bind_inv H as rest s3 Hrec. run_inv H.
    apply IH in Hrec. destruct Hrec as (Hmap & Hrest).
    split; [simpl; f_equal; exact Hmap |].
    intros [| j] box color Hnth; simpl in Hnth.
    + inversion Hnth; subst; clear Hnth. rewrite Z.add_0_r.
      destruct (i <? whitened) eqn:E.
      * apply Z.ltb_lt in E. run_inv Hc. split; [reflexivity | lia].
      * apply Z.ltb_ge in E. run_inv Hc. split; [lia |].
        intros _. exists avg, rng, s1. auto.
    + destruct (Hrest j box color Hnth) as (Hw & Hq).
      split; intro Hj; [apply Hw | apply Hq]; lia.
Qed.

Lemma paint_pixel_putpixel color xy img :
  paint_pixel color xy img = putpixel xy color img.
Proof.
  unfold paint_pixel, bind, getpixel, putpixel.
  destruct (locate img xy) as [[x y] |]; reflexivity.
Qed.

Lemma forM__ext {S A} (f g : A -> M S unit) l :
  (forall a s, f a s = g a s) -> forall s, forM_ f l s = forM_ g l s.
Proof.
  intros Hfg. induction l as [| a l IH]; intro s; simpl; [reflexivity |].
  unfold bind. rewrite Hfg. destruct (g a s) as [[[] | e] s1]; auto.
Qed.

Lemma paint_box_unfold box color img :
  paint_box (box, color) img =
  forM_ (fun xy => putpixel xy color) (box_coordinates box) img.
Proof.
  unfold paint_box, box_coordinates.
  rewrite <- (forM__flat_map (fun xy => putpixel xy color)
                (fun x => map (fun y => (x, y))
                              (range2 (Bottom box) (Top box + 1)))).
  apply forM__ext. intros x s.
  generalize (range2 (Bottom box) (Top box + 1)). intro l. revert s.
  induction l as [| y l IH]; intro s; simpl; [reflexivity |].
  unfold bind. rewrite paint_pixel_putpixel.
  destruct (putpixel (x, y) color s) as [[[] | e] s1]; auto.
Qed.

Lemma last_writer_same_size img img' colors x y prior :
  width img' = width img -> height img' = height img ->
  last_writer img' colors x y prior = last_writer img colors x y prior.
Proof.
  intros Hw Hh. revert prior.
  induction colors as [| [box color] colors IH]; intro prior; simpl.
  - reflexivity.
  - rewrite (reaches_same_size img img') by assumption. apply IH.
Qed.

(** The painting loop of [colorize]: the size is kept and every pixel ends
    with the colour of the last box that reaches it. *)
Lemma paint_all_ok colors :
  forall img img',
    forM_ paint_box colors img = (Ok tt, img') ->
    width img' = width img /\ height img' = height img /\
    forall x y, pixels img' x y = last_writer img colors x y (pixels img x y).
Proof.
  induction colors as [| [box color] colors IH]; intros img img' H.
  - simpl in H. run_inv H. auto.
  - cbn [forM_] in H. bind_inv H as u img1 Hbox. destruct u.
    rewrite paint_box_unfold in Hbox.
    apply write_all_ok in Hbox. destruct Hbox as (Hw & Hh & Hp).
    apply IH in H. destruct H as (Hw' & Hh' & Hp').
    split; [congruence |]. split; [congruence |].
    intros x y. rewrite Hp', Hp. cbn [last_writer].
    apply last_writer_same_size; assumption.
Qed.

Lemma last_writer_none img colors x y :
  (forall j box color,
      nth_error colors j = Some (box, color) ->
      reaches img (box_coordinates box) x y = false) ->
  forall prior, last_writer img colors x y prior = prior.
Proof.
  induction colors as [| [b c] colors IH]; intros Hnone prior; simpl.
  - reflexivity.
  - rewrite (Hnone O b c eq_refl). apply IH.
    intros j box color Hj. apply (Hnone (S j) box color Hj).
Qed.

Lemma last_writer_at img colors x y :
  forall i box color prior,
    nth_error colors i = Some (box, color) ->
    reaches img (box_coordinates box) x y = true ->
    (forall j box' color',
        (i < j)%nat -> nth_error colors j = Some (box', color') ->
        reaches img (box_coordinates box') x y = false) ->
    last_writer img colors x y prior = color.
Proof.
  induction colors as [| [b c] colors IH];
    intros i box color prior Hnth Hreach Hlater.
  - destruct i; discriminate.
  - destruct i as [| i]; simpl in Hnth.
    + inversion Hnth; subst; clear Hnth. simpl. rewrite Hreach.
      apply last_writer_none. intros j box' color' Hj.
      apply (Hlater (S j) box' color'); [lia | exact Hj].
    + simpl. apply (IH i box color); [exact Hnth | exact Hreach |].
      intros j box' color' Hlt Hj.
      apply (Hlater (S j) box' color'); [lia | exact Hj].
Qed.

Lemma on_rng_ok {A} (c : M Rng A) w a w' :
  on_rng c w = (Ok a, w') -> c (snd w) = (Ok a, snd w') /\ fst w' = fst w.
Proof.
  unfold on_rng. destruct (c (snd w)) as [o r]. intro H.
  inversion H; subst. split; reflexivity.
Qed.

Lemma on_image_ok {A} (c : M Image A) w a w' :
  on_image c w = (Ok a, w') -> c (fst w) = (Ok a, fst w') /\ snd w' = snd w.
Proof.
  unfold on_image. destruct (c (fst w)) as [o i]. intro H.
  inversion H; subst. split; reflexivity.
Qed.

Lemma contrastize_ok grain avg color :
  contrastize grain avg = Ok color ->
  roundize (b64_of_Q (fst (fst avg))) grain = Ok (red_of color) /\
  roundize (b64_of_Q (snd (fst avg))) grain = Ok (green_of color) /\
  roundize (b64_of_Q (snd avg)) grain = Ok (blue_of color).
Proof.
  destruct avg as [[r g] b]. unfold contrastize. cbn [fst snd]. intro H.
  destruct (roundize (b64_of_Q r) grain) as [zr | e]; [| discriminate].
  destruct (roundize (b64_of_Q g) grain) as [zg | e]; [| discriminate].
  destruct (roundize (b64_of_Q b) grain) as [zb | e]; [| discriminate].
  cbn [obind] in H. inversion H; subst. repeat split.
Qed.

(** What a run of [colorize] that returns has gone through: the count of
    whitened boxes, the colour list, the painting. *)
Lemma colorize_ok white contrast boxes img rng img' rng' :
  colorize white contrast boxes (img, rng) = (Ok tt, (img', rng')) ->
  exists count k colors,
    float_of_int (len boxes) = Ok count /\
    py_int (b64_mul white count) = Ok k /\
    choose_colors img k contrast 0 boxes rng = (Ok colors, rng') /\
    forM_ paint_box colors img = (Ok tt, img').
Proof.
  intro H. unfold colorize in H.
  bind_inv H as k w0 Hk. apply lift_ok_inv in Hk. destruct Hk as (Hk & ->).
  unfold float_mul_int in Hk.
  destruct (float_of_int (len boxes)) as [count | e] eqn:Ec;
    [| discriminate].
  cbn [obind] in Hk.
  bind_inv H as img0 w1 Himg. unfold the_image in Himg. simpl in Himg.
  injection Himg as <- <-.
  bind_inv H as colors w2 Hcolors.
  apply on_rng_ok in Hcolors. simpl in Hcolors.
  destruct Hcolors as (Hcolors & Hsame).
  apply on_image_ok in H. simpl in H. destruct H as (Hpaint & Hrng).
  rewrite Hsame in Hpaint. rewrite <- Hrng in Hcolors.
  exists count, k, colors. auto.
Qed.

(** C8, as the code has it.  When the recolourer succeeds on [n] boxes,
    the colour list it builds follows the boxes in order; with
    [k = int(white * n)], the product being the binary64 one, the entries
    at positions below [k] are pure white whatever the pixels are, and
    every entry from position [k] on has, channel by channel, the
    quantized mean of a sample of its box; [k] is not negative when the
    fraction is not; then every pixel ends with the colour of the last
    box that reaches it. *)
Theorem colorize_whitens_prefix white contrast boxes img rng img' rng' :
  colorize white contrast boxes (img, rng) = (Ok tt, (img', rng')) ->
  exists count k colors,
    float_of_int (len boxes) = Ok count /\
    py_int (b64_mul white count) = Ok k /\
    (has_sign false white -> 0 <= k) /\
    map fst colors = boxes /\
    (forall i box color,
        nth_error colors i = Some (box, color) ->
        (Z.of_nat i < k -> color = pure_white) /\
        (k <= Z.of_nat i ->
         exists avg r1 r2,
           average img box r1 = (Ok avg, r2) /\
           roundize (b64_of_Q (fst (fst avg))) contrast = Ok (red_of color) /\
           roundize (b64_of_Q (snd (fst avg))) contrast
           = Ok (green_of color) /\
           roundize (b64_of_Q (snd avg)) contrast = Ok (blue_of color))) /\
    (forall x y,
        pixels img' x y = last_writer img colors x y (pixels img x y)) /\
    (forall i box color x y,
        nth_error colors i = Some (box, color) ->
        reaches img (box_coordinates box) x y = true ->
        (forall j box' color',
            (i < j)%nat -> nth_error colors j = Some (box', color') ->
            reaches img (box_coordinates box') x y = false) ->
        pixels img' x y = color).
Proof.
  intro H. apply colorize_ok in H.
  destruct H as (count & k & colors & Hcount & Hk & Hcolors & Hpaint).
  apply choose_colors_ok in Hcolors. destruct Hcolors as (Hmap & Hentries).
  apply paint_all_ok in Hpaint. destruct Hpaint as (_ & _ & Hpix).
  exists count, k, colors.
  split; [exact Hcount |]. split; [exact Hk |]. split; [| split; [| split; [| split]]].
  - intro Hw. pose proof (float_of_int_sign _ _ Hcount) as (Hs & _).
    replace (len boxes <? 0) with false in Hs
      by (symmetry; apply Z.ltb_ge; unfold len; lia).
    destruct (b64_mul_sign false false white count Hw Hs) as [E | Hp].
    + rewrite E in Hk. discriminate Hk.
    + apply (py_int_nonneg _ _ Hp Hk).
  - exact Hmap.
  - intros i box color Hnth.
    destruct (Hentries i box color Hnth) as (Hw & Hq).
    rewrite Z.add_0_l in Hw, Hq. split; [exact Hw |].
    intro Hge. destruct (Hq Hge) as (avg & r1 & r2 & Hav & Hc).
    exists avg, r1, r2. split; [exact Hav |].
    apply contrastize_ok. exact Hc.
  - exact Hpix.
  - intros i box color x y Hnth Hreach Hlater. rewrite Hpix.
    apply (last_writer_at img colors x y i box color); assumption.
Qed.

Lemma colorize_whitens_prefix_witness :
  let out :=
    snd (colorize (b64_of_Q (1 # 2)) (b64_of_Q 32) pixel_boxes
           (img31, scripted [])) in
  exists count k colors,
    float_of_int (len pixel_boxes) = Ok count /\
    py_int (b64_mul (b64_of_Q (1 # 2)) count) = Ok k /\
    (has_sign false (b64_of_Q (1 # 2)) -> 0 <= k) /\
    map fst colors = pixel_boxes /\
    (forall i box color,
        nth_error colors i = Some (box, color) ->
        (Z.of_nat i < k -> color = pure_white) /\
        (k <= Z.of_nat i ->
         exists avg r1 r2,
           average img31 box r1 = (Ok avg, r2) /\
           roundize (b64_of_Q (fst (fst avg))) (b64_of_Q 32)
           = Ok (red_of color) /\
           roundize (b64_of_Q (snd (fst avg))) (b64_of_Q 32)
           = Ok (green_of color) /\
           roundize (b64_of_Q (snd avg)) (b64_of_Q 32)
           = Ok (blue_of color))) /\
    (forall x y,
        pixels (fst out) x y =
        last_writer img31 colors x y (pixels img31 x y)) /\
    (forall i box color x y,
        nth_error colors i = Some (box, color) ->
        reaches img31 (box_coordinates box) x y = true ->
        (forall j box' color',
            (i < j)%nat -> nth_error colors j = Some (box', color') ->
            reaches img31 (box_coordinates box') x y = false) ->
        pixels (fst out) x y = color).
Proof.
  intro out.
  apply (colorize_whitens_prefix (b64_of_Q (1 # 2)) (b64_of_Q 32)
           pixel_boxes img31 (scripted []) (fst out) (snd out)).
  vm_compute. reflexivity.
Defined.

(** C8 as stated fails: the count is the integer part of the rounded
    product, not the floor of the product.  With the fraction 0.6 (the
    binary64 number, just below six tenths) and five boxes the product is
    just below 3, its floor is 2, and the rounded product is 3.0: the
    third box, whose mean colour is (20, 40, 60), is painted white.  In
    the other direction, with the fraction 0.58 and fifty boxes the
    rounded product is just below 29 and 28 boxes are whitened, one fewer
    than the floor of 0.58 * 50 = 29. *)
Lemma colorize_whitens_past_floor :
  let white := b64_of_Q (6 # 10) in
  let out :=
    colorize white (b64_of_Q 32) five_boxes (img51, scripted []) in
  (0 <= b64_value white <= 1)%Q /\
  Qfloor (b64_value white * inject_Z (len five_boxes)) = 2 /\
  fst out = Ok tt /\
  pixels img51 2 0 = (20, 40, 60) /\
  pixels (fst (snd out)) 2 0 = pure_white /\
  pixels (fst (snd out)) 3 0 = (32, 64, 96) /\
  Qfloor ((58 # 100) * 50) = 29 /\
  (product <~ float_mul_int (b64_of_Q (58 # 100)) 50 ;; py_int product)
  = Ok 28.
Proof.
  intros white out.
  split; [split; vm_compute; discriminate |].
  repeat split; vm_compute; reflexivity.
Qed.

(** ** Degenerate configurations *)

Lemma range_nonpositive n : n <= 0 -> range n = [].
Proof. intro H. apply range2_empty. exact H. Qed.

(** With no attempt per axis there is no candidate, and no draw. *)
Lemma split_no_cuts img cuts margin box rng :
  cuts <= 0 -> split img cuts margin box rng = (Ok None, rng).
Proof.
  intro H. unfold split. rewrite (range_nonpositive cuts H). simpl mapM.
  destruct (Z.min (Left box) (Right box) + margin
            <? Z.max (Left box) (Right box) - margin);
    destruct (Z.min (Top box) (Bottom box) + margin
              <? Z.max (Top box) (Bottom box) - margin);
    reflexivity.
Qed.








(** ** Determinism *)

Lemma agree_ret {S A} (R : S -> S -> Prop) (a : A) : agree R (ret a) (ret a).
Proof. intros s1 s2 H. split; [reflexivity | exact H]. Qed.

Lemma agree_lift {S A} (R : S -> S -> Prop) (o1 o2 : Outcome A) :
  o1 = o2 -> agree R (lift o1) (lift o2).
Proof. intros -> s1 s2 H. split; [reflexivity | exact H]. Qed.

Lemma agree_bind {S A B} (R : S -> S -> Prop)
  (c1 c2 : M S A) (k1 k2 : A -> M S B) :
  agree R c1 c2 -> (forall a, agree R (k1 a) (k2 a)) ->
  agree R (bind c1 k1) (bind c2 k2).
Proof.
  intros Hc Hk s1 s2 Hs. unfold bind.
  destruct (Hc s1 s2 Hs) as (Ho & Hs').
  destruct (c1 s1) as [o1 t1], (c2 s2) as [o2 t2]. simpl in Ho, Hs'.
  subst o2. destruct o1 as [a | e].
  - apply Hk. exact Hs'.
  - split; [reflexivity | exact Hs'].
Qed.

Lemma agree_mapM {S A B} (R : S -> S -> Prop) (f1 f2 : A -> M S B) l :
  (forall a, agree R (f1 a) (f2 a)) -> agree R (mapM f1 l) (mapM f2 l).
Proof.
  intro Hf. induction l as [| a l IH]; simpl.
  - apply agree_ret.
  - apply agree_bind; [apply Hf |]. intro b.
    apply agree_bind; [exact IH |]. intro bs. apply agree_ret.
Qed.

Lemma agree_forM_ {S A} (R : S -> S -> Prop) (f1 f2 : A -> M S unit) l :
  (forall a, agree R (f1 a) (f2 a)) -> agree R (forM_ f1 l) (forM_ f2 l).
Proof.
  intro Hf. induction l as [| a l IH]; simpl.
  - apply agree_ret.
  - apply agree_bind; [apply Hf |]. intros _. exact IH.
Qed.

Lemma agree_randint a b : agree same_draws (randint a b) (randint a b).
Proof.
  intros r1 r2 H. unfold randint. destruct (b <? a).
  - split; [reflexivity | exact H].
  - simpl. pose proof (H O) as H0. rewrite !Nat.add_0_r in H0.
    rewrite H0. split; [reflexivity |].
    intro n. simpl. specialize (H (S n)).
    rewrite !Nat.add_succ_r in H. exact H.
Qed.

Lemma getpixel_same i1 i2 xy :
  same_pixels i1 i2 -> getpixel i1 xy = getpixel i2 xy.
Proof.
  intros (Hw & Hh & Hp). unfold getpixel.
  rewrite (locate_same_size i1 i2 xy) by (symmetry; assumption).
  destruct (locate i1 xy) as [[x y] |] eqn:E; [| reflexivity].
  apply locate_some in E. f_equal. apply Hp; tauto.
Qed.

Lemma agree_average i1 i2 box :
  same_pixels i1 i2 -> agree same_draws (average i1 box) (average i2 box).
Proof.
  intro Hi. unfold average. apply agree_bind.
  - apply agree_mapM. intro i. unfold sample_point.
    apply agree_bind; [apply agree_randint |]. intro x.
    apply agree_bind; [apply agree_randint |]. intro y.
    apply agree_lift. apply getpixel_same. exact Hi.
  - intro sample. apply agree_lift. reflexivity.
Qed.

Lemma agree_split_key i1 i2 pair :
  same_pixels i1 i2 -> agree same_draws (split_key i1 pair) (split_key i2 pair).
Proof.
  intro Hi. unfold split_key.
  apply agree_bind; [apply agree_average; exact Hi |]. intro c1.
  apply agree_bind; [apply agree_average; exact Hi |]. intro c2.
  apply agree_ret.
Qed.

Lemma agree_max_scan {S A} (R : S -> S -> Prop) (key1 key2 : A -> M S Q) rest :
  (forall a, agree R (key1 a) (key2 a)) ->
  forall best bestval,
    agree R (max_scan key1 best bestval rest) (max_scan key2 best bestval rest).
Proof.
  intro Hk. induction rest as [| item rest IH]; intros best bestval; simpl.
  - apply agree_ret.
  - apply agree_bind; [apply Hk |]. intro val.
    destruct (Qlt_le_dec bestval val); apply IH.
Qed.

Lemma agree_split i1 i2 cuts margin box :
  same_pixels i1 i2 ->
  agree same_draws (split i1 cuts margin box) (split i2 cuts margin box).
Proof.
  intro Hi. unfold split.
  apply agree_bind.
  { destruct (_ <? _); [| apply agree_ret].
    apply agree_mapM. intro i. unfold vertical_cut.
    apply agree_bind; [apply agree_randint |]. intro cut. apply agree_ret. }
  intro vertical. apply agree_bind.
  { destruct (_ <? _); [| apply agree_ret].
    apply agree_mapM. intro i. unfold horizontal_cut.
    apply agree_bind; [apply agree_randint |]. intro cut. apply agree_ret. }
  intro horizontal.
  destruct (vertical ++ horizontal) as [| first rest]; [apply agree_ret |].
  apply agree_bind; [apply agree_split_key; exact Hi |]. intro firstval.
  apply agree_bind.
  - apply agree_max_scan. intro a. apply agree_split_key. exact Hi.
  - intro best. apply agree_ret.
Qed.

Lemma agree_spawn_from splitter1 splitter2 boxIndex boxes :
  (forall b, agree same_draws (splitter1 b) (splitter2 b)) ->
  forall i,
    agree same_draws (spawn_from splitter1 boxIndex i boxes)
                     (spawn_from splitter2 boxIndex i boxes).
Proof.
  intro Hs. induction boxes as [| box rest IH]; intro i; simpl.
  - apply agree_ret.
  - apply agree_bind.
    + destruct (i =? boxIndex); [| apply agree_ret].
      apply agree_bind; [apply Hs |].
      intros [[box1 box2] |]; apply agree_ret.
    + intro here. apply agree_bind; [apply IH |]. intro more.
      apply agree_ret.
Qed.

Lemma agree_spawn splitter1 splitter2 boxes :
  (forall b, agree same_draws (splitter1 b) (splitter2 b)) ->
  agree same_draws (spawn splitter1 boxes) (spawn splitter2 boxes).
Proof.
  intro Hs. unfold spawn. apply agree_bind; [apply agree_randint |].
  intro boxIndex. apply agree_spawn_from. exact Hs.
Qed.

Lemma agree_fragment splitter1 splitter2 steps :
  (forall b, agree same_draws (splitter1 b) (splitter2 b)) ->
  forall boxes,
    agree same_draws (fragment splitter1 steps boxes)
                     (fragment splitter2 steps boxes).
Proof.
  intro Hs. induction steps as [| steps IH]; intro boxes; simpl.
  - apply agree_ret.
  - apply agree_bind; [apply agree_spawn; exact Hs | exact IH].
Qed.

Lemma canvas_same i1 i2 : same_pixels i1 i2 -> canvas i1 = canvas i2.
Proof. intros (Hw & Hh & _). unfold canvas. rewrite Hw, Hh. reflexivity. Qed.

Lemma agree_boxize i1 i2 cuts margin depth :
  same_pixels i1 i2 ->
  agree same_draws (boxize i1 cuts margin depth) (boxize i2 cuts margin depth).
Proof.
  intro Hi. unfold boxize. rewrite (canvas_same i1 i2 Hi).
  apply agree_fragment. intro b. apply agree_split. exact Hi.
Qed.

Lemma agree_choose_colors i1 i2 whitened contrast boxes :
  same_pixels i1 i2 ->
  forall i,
    agree same_draws (choose_colors i1 whitened contrast i boxes)
                     (choose_colors i2 whitened contrast i boxes).
Proof.
  intro Hi. induction boxes as [| box rest IH]; intro i; simpl.
  - apply agree_ret.
  - apply agree_bind; [apply agree_average; exact Hi |]. intro avg_color.
    apply agree_bind.
    + destruct (i <? whitened); [apply agree_ret |].
      apply agree_lift. reflexivity.
    + intro color. apply agree_bind; [apply IH |]. intro colors.
      apply agree_ret.
Qed.

Lemma agree_putpixel xy color :
  agree same_pixels (putpixel xy color) (putpixel xy color).
Proof.
  intros i1 i2 Hi. pose proof Hi as (Hw & Hh & Hp). unfold putpixel.
  rewrite (locate_same_size i1 i2 xy) by (symmetry; assumption).
  destruct (locate i1 xy) as [[x y] |]; simpl.
  - split; [reflexivity |]. split; [exact Hw |]. split; [exact Hh |].
    simpl. intros x' y' Hx Hy. rewrite Hp by assumption. reflexivity.
  - split; [reflexivity | exact Hi].
Qed.

Lemma agree_paint_pixel color xy :
  agree same_pixels (paint_pixel color xy) (paint_pixel color xy).
Proof.
  intros i1 i2 Hi. rewrite !paint_pixel_putpixel.
  apply agree_putpixel. exact Hi.
Qed.

Lemma agree_paint_box entry :
  agree same_pixels (paint_box entry) (paint_box entry).
Proof.
  destruct entry as [box color]. unfold paint_box.
  apply agree_forM_. intro x. apply agree_forM_. intro y.
  apply agree_paint_pixel.
Qed.

Lemma agree_borderize margin boxes :
  agree same_pixels (borderize margin boxes) (borderize margin boxes).
Proof.
  intros i1 i2 Hi. pose proof Hi as (Hw & Hh & _).
  unfold borderize. rewrite Hw, Hh.
  apply agree_forM_; [| exact Hi]. intro box.
  apply agree_forM_. intro xy. apply agree_putpixel.
Qed.

Lemma agree_on_rng {A} (c1 c2 : M Rng A) :
  agree same_draws c1 c2 -> agree same_world (on_rng c1) (on_rng c2).
Proof.
  intros Hc w1 w2 (Hi & Hr). unfold on_rng.
  destruct (Hc _ _ Hr) as (Ho & Hr').
  destruct (c1 (snd w1)) as [o1 r1], (c2 (snd w2)) as [o2 r2].
  simpl in *. split; [exact Ho |]. split; assumption.
Qed.

Lemma agree_on_image {A} (c1 c2 : M Image A) :
  agree same_pixels c1 c2 -> agree same_world (on_image c1) (on_image c2).
Proof.
  intros Hc w1 w2 (Hi & Hr). unfold on_image.
  destruct (Hc _ _ Hi) as (Ho & Hi').
  destruct (c1 (fst w1)) as [o1 j1], (c2 (fst w2)) as [o2 j2].
  simpl in *. split; [exact Ho |]. split; assumption.
Qed.

(** Reading the image of the world gives two buffers with the same
    content; what follows may depend on that content only. *)
Lemma agree_with_image {A} (k1 k2 : Image -> M World A) :
  (forall i1 i2, same_pixels i1 i2 -> agree same_world (k1 i1) (k2 i2)) ->
  agree same_world (bind the_image k1) (bind the_image k2).
Proof.
  intros Hk w1 w2 Hw. unfold bind, the_image.
  apply Hk; [exact (proj1 Hw) | exact Hw].
Qed.

Lemma agree_colorize white contrast boxes :
  agree same_world (colorize white contrast boxes)
                   (colorize white contrast boxes).
Proof.
  unfold colorize. apply agree_bind; [apply agree_lift; reflexivity |].
  intro whitened. apply agree_with_image. intros i1 i2 Hi.
  apply agree_bind.
  - apply agree_on_rng. apply agree_choose_colors. exact Hi.
  - intro colors. apply agree_on_image. apply agree_forM_.
    apply agree_paint_box.
Qed.

Lemma agree_pipeline cuts edges depth white contrast margin :
  agree same_world (pipeline cuts edges depth white contrast margin)
                   (pipeline cuts edges depth white contrast margin).
Proof.
  unfold pipeline. apply agree_with_image. intros i1 i2 Hi.
  apply agree_bind.
  - apply agree_on_rng. apply agree_boxize. exact Hi.
  - intro boxes. apply agree_bind; [apply agree_colorize |].
    intros _. apply agree_on_image. apply agree_borderize.
Qed.

(** C6. Two runs of the pipeline with the same configuration, on buffers
    with the same content and with random sources that give the same
    draws, end alike: the partition builder returns the same partition (or
    the same exception), the pipeline has the same outcome, the two output
    buffers have the same size and the same pixel at every coordinate, and
    the random sources are again in the same state. *)
Theorem pipeline_deterministic cuts edges depth white contrast margin
  img1 rng1 img2 rng2 :
  same_pixels img1 img2 ->
  same_draws rng1 rng2 ->
  fst (boxize img1 cuts edges depth rng1) =
  fst (boxize img2 cuts edges depth rng2) /\
  let run1 := pipeline cuts edges depth white contrast margin (img1, rng1) in
  let run2 := pipeline cuts edges depth white contrast margin (img2, rng2) in
  fst run1 = fst run2 /\
  same_pixels (fst (snd run1)) (fst (snd run2)) /\
  same_draws (snd (snd run1)) (snd (snd run2)).
Proof.
  intros Hi Hr. split.
  - apply (agree_boxize img1 img2 cuts edges depth Hi rng1 rng2 Hr).
  - destruct (agree_pipeline cuts edges depth white contrast margin
                (img1, rng1) (img2, rng2)) as (Ho & Hi' & Hr').
    + split; assumption.
    + simpl. auto.
Qed.

Lemma pipeline_deterministic_witness :
  fst (boxize img31 1 0 1 (scripted [0; 2])) =
  fst (boxize img31_padded 1 0 1 (replay [0; 2])) /\
  let run1 :=
    pipeline 1 0 1 (b64_of_Q (1 # 2)) (b64_of_Q 32) 1
      (img31, scripted [0; 2]) in
  let run2 :=
    pipeline 1 0 1 (b64_of_Q (1 # 2)) (b64_of_Q 32) 1
      (img31_padded, replay [0; 2]) in
  fst run1 = fst run2 /\
  same_pixels (fst (snd run1)) (fst (snd run2)) /\
  same_draws (snd (snd run1)) (snd (snd run2)).
Proof.
  apply (pipeline_deterministic 1 0 1 (b64_of_Q (1 # 2)) (b64_of_Q 32) 1
           img31 (scripted [0; 2]) img31_padded (replay [0; 2])).
  - split; [reflexivity |]. split; [reflexivity |].
    simpl. intros x y Hx Hy.
    destruct (0 <=? x) eqn:E1; [| apply Z.leb_gt in E1; lia].
    destruct (x <? 3) eqn:E2; [| apply Z.ltb_ge in E2; lia].
    destruct (y =? 0) eqn:E3; [| apply Z.eqb_neq in E3; lia].
    reflexivity.
  - intro n. simpl. rewrite Nat.sub_0_r. reflexivity.
Defined.

(** ** The splitter *)

Lemma max_scan_in {S A} (key : A -> M S Q) rest :
  forall best bestval s r s',
    max_scan key best bestval rest s = (Ok r, s') ->
    r = best \/ In r rest.
Proof.
  induction rest as [| item rest IH]; simpl; intros best bestval s r s' H.
  - run_inv H. left. reflexivity.
  - bind_inv H as val s1 Hval.
    destruct (Qlt_le_dec bestval val).
    + apply IH in H. destruct H as [-> | H]; auto.
    + apply IH in H. destruct H as [-> | H]; auto.
Qed.

(** Whenever [split] returns a pair, the pair is one of its candidates: a
    cut drawn from [min + margin .. max + 1 - margin] on an axis with
    [min + margin < max - margin]. *)
Lemma split_returns_cut img cuts margin box rng pair rng' :
  split img cuts margin box rng = (Ok (Some pair), rng') ->
  is_cut margin box pair.
Proof.
  unfold split. intro H.
  bind_inv H as vertical s1 Hv. bind_inv H as horizontal s2 Hh.
  assert (Hall : Forall (is_cut margin box) (vertical ++ horizontal)).
  { apply Forall_app. split.
    - destruct (_ <? _) eqn:E in Hv.
      + apply Z.ltb_lt in E.
        eapply mapM_Forall; [| exact Hv].
        intros i s p s' _ Hcut. unfold vertical_cut in Hcut.
        bind_inv Hcut as cut s3 Hr. run_inv Hcut.
        apply randint_ok in Hr. left. exists cut. tauto.
      + run_inv Hv. constructor.
    - destruct (_ <? _) eqn:E in Hh.
      + apply Z.ltb_lt in E.
        eapply mapM_Forall; [| exact Hh].
        intros i s p s' _ Hcut. unfold horizontal_cut in Hcut.
        bind_inv Hcut as cut s3 Hr. run_inv Hcut.
        apply randint_ok in Hr. right. exists cut. tauto.
      + run_inv Hh. constructor. }
  destruct (vertical ++ horizontal) as [| first rest].
  - run_inv H. discriminate.
  - bind_inv H as firstval s3 Hkey. bind_inv H as best s4 Hscan.
    run_inv H. injection H as ->.
    rewrite Forall_forall in Hall.
    apply max_scan_in in Hscan. destruct Hscan as [-> | Hin].
    + apply Hall. left. reflexivity.
    + apply Hall. right. exact Hin.
Qed.

(** With a margin of at least two, a cut of a box with ordered bounds
    leaves two halves that exactly partition it. *)
Lemma cut_exact_split margin box pair :
  2 <= margin -> nonempty box -> is_cut margin box pair ->
  exact_split box (fst pair) (snd pair).
Proof.
  intros Hm (Hx & Hy) [(cut & Hg & Hc & ->) | (cut & Hg & Hc & ->)].
  - rewrite Z.min_l, Z.max_r in Hg, Hc by lia.
    unfold exact_split, in_box, nonempty. simpl. repeat split; lia.
  - rewrite Z.min_r, Z.max_l in Hg, Hc by lia.
    unfold exact_split, in_box, nonempty. simpl. repeat split; lia.
Qed.

(** ** The partition builder *)

Lemma in_boxb_spec box x y : in_boxb box x y = true <-> in_box box x y.
Proof.
  unfold in_boxb, in_box. rewrite !andb_true_iff, !Z.leb_le. tauto.
Qed.

Lemma cover_count_app l1 l2 x y :
  cover_count (l1 ++ l2) x y = (cover_count l1 x y + cover_count l2 x y)%nat.
Proof. unfold cover_count. rewrite filter_app, length_app. reflexivity. Qed.

Lemma cover_count_one box x y :
  cover_count [box] x y = if in_boxb box x y then 1%nat else 0%nat.
Proof. unfold cover_count. simpl. destruct (in_boxb box x y); reflexivity. Qed.

Lemma in_boxb_false box x y : in_boxb box x y = false <-> ~ in_box box x y.
Proof.
  rewrite <- in_boxb_spec. destruct (in_boxb box x y); split; congruence.
Qed.

Lemma cover_count_halves box box1 box2 x y :
  exact_split box box1 box2 ->
  cover_count [box1; box2] x y = cover_count [box] x y.
Proof.
  intros (Hu & Hd & _). specialize (Hu x y). specialize (Hd x y).
  change [box1; box2] with ([box1] ++ [box2]).
  rewrite cover_count_app, !cover_count_one.
  destruct (in_boxb box x y) eqn:E0; destruct (in_boxb box1 x y) eqn:E1;
    destruct (in_boxb box2 x y) eqn:E2;
    simpl; try reflexivity; exfalso;
    first [apply in_boxb_spec in E0 | apply in_boxb_false in E0];
    first [apply in_boxb_spec in E1 | apply in_boxb_false in E1];
    first [apply in_boxb_spec in E2 | apply in_boxb_false in E2];
    tauto.
Qed.

Lemma exact_split_sound img box box1 box2 :
  sound_box img box -> exact_split box box1 box2 ->
  sound_box img box1 /\ sound_box img box2.
Proof.
  intros ((Hx & Hy) & Hc) (Hu & _ & (Hx1 & Hy1) & (Hx2 & Hy2)).
  unfold within_canvas in Hc.
  pose proof (proj2 (Hu (Left box1) (Bottom box1))) as A1.
  pose proof (proj2 (Hu (Right box1) (Top box1))) as A2.
  pose proof (proj2 (Hu (Left box2) (Bottom box2))) as A3.
  pose proof (proj2 (Hu (Right box2) (Top box2))) as A4.
  unfold in_box in A1, A2, A3, A4.
  unfold sound_box, nonempty, within_canvas. repeat split; lia.
Qed.

Section Spawn.

Variable img : Image.
Variable splitter : Box -> M Rng (option (Box * Box)).

(** The splitter only ever returns exact splits of sound boxes. *)
Hypothesis splitter_exact :
  forall box rng box1 box2 rng',
    sound_box img box ->
    splitter box rng = (Ok (Some (box1, box2)), rng') ->
    exact_split box box1 box2.

Lemma spawn_from_preserves boxIndex boxes :
  forall i rng out rng',
    Forall (sound_box img) boxes ->
    spawn_from splitter boxIndex i boxes rng = (Ok out, rng') ->
    Forall (sound_box img) out /\
    forall x y, cover_count out x y = cover_count boxes x y.
Proof.
  induction boxes as [| box rest IH]; intros i rng out rng' Hs H.
  - simpl in H. run_inv H. split; [constructor | reflexivity].
  - cbn [spawn_from] in H.
    bind_inv H as here s1 Hhere. bind_inv H as more s2 Hmore. run_inv H.
    inversion Hs as [| ? ? Hbox Hrest]; subst.
    apply IH in Hmore; [| exact Hrest]. destruct Hmore as (Hsm & Hcm).
    assert (Hh : Forall (sound_box img) here /\
                 forall x y, cover_count here x y = cover_count [box] x y).
    { destruct (i =? boxIndex).
      - bind_inv Hhere as split_result s3 Hsplit.
        destruct split_result as [[box1 box2] |]; run_inv Hhere.
        + pose proof (splitter_exact _ _ _ _ _ Hbox Hsplit) as Hex.
          destruct (exact_split_sound img box box1 box2 Hbox Hex).
          split; [repeat (apply Forall_cons; [assumption |]); apply Forall_nil |].
          intros x y. apply cover_count_halves. exact Hex.
        + split; [repeat (apply Forall_cons; [assumption |]); apply Forall_nil | reflexivity].
      - run_inv Hhere.
        split; [repeat (apply Forall_cons; [assumption |]); apply Forall_nil | reflexivity]. }
    destruct Hh as (Hsh & Hch).
    split; [apply Forall_app; split; assumption |].
    intros x y. rewrite cover_count_app, Hch, Hcm.
    change (box :: rest) with ([box] ++ rest).
    rewrite cover_count_app. reflexivity.
Qed.

Lemma fragment_preserves steps :
  forall boxes rng out rng',
    Forall (sound_box img) boxes ->
    fragment splitter steps boxes rng = (Ok out, rng') ->
    Forall (sound_box img) out /\
    forall x y, cover_count out x y = cover_count boxes x y.
Proof.
  induction steps as [| steps IH]; intros boxes rng out rng' Hs H.
  - simpl in H. run_inv H. split; [assumption | reflexivity].
  - cbn [fragment] in H. bind_inv H as more s1 Hspawn.
    unfold spawn in Hspawn. bind_inv Hspawn as boxIndex s2 Hidx.
    apply spawn_from_preserves in Hspawn; [| exact Hs].
    destruct Hspawn as (Hsm & Hcm).
    apply IH in H; [| exact Hsm]. destruct H as (Hso & Hco).
    split; [exact Hso |]. intros x y. rewrite Hco. apply Hcm.
Qed.

End Spawn.

Lemma split_exact_wide_margin img cuts margin box rng box1 box2 rng' :
  2 <= margin -> nonempty box ->
  split img cuts margin box rng = (Ok (Some (box1, box2)), rng') ->
  exact_split box box1 box2.
Proof.
  intros Hm Hne H. apply split_returns_cut in H.
  apply (cut_exact_split margin box (box1, box2)); assumption.
Qed.

Lemma cover_count_pos boxes box x y :
  In box boxes -> in_box box x y -> (1 <= cover_count boxes x y)%nat.
Proof.
  intros Hin Hb. apply in_boxb_spec in Hb.
  assert (Hf : In box (filter (fun b => in_boxb b x y) boxes)).
  { apply filter_In. split; assumption. }
  unfold cover_count. destruct (filter _ boxes); [contradiction | simpl; lia].
Qed.

Lemma cover_count_witness boxes x y :
  (1 <= cover_count boxes x y)%nat ->
  exists box, In box boxes /\ in_box box x y.
Proof.
  unfold cover_count. intro H.
  destruct (filter (fun b => in_boxb b x y) boxes) as [| b l] eqn:E.
  - simpl in H. lia.
  - assert (Hin : In b (filter (fun b => in_boxb b x y) boxes)).
    { rewrite E. left. reflexivity. }
    apply filter_In in Hin. destruct Hin as (Hin & Hb).
    exists b. split; [exact Hin | apply in_boxb_spec; exact Hb].
Qed.

Lemma cover_count_two boxes x y :
  forall i j b1 b2,
    (i < j)%nat ->
    nth_error boxes i = Some b1 -> nth_error boxes j = Some b2 ->
    in_box b1 x y -> in_box b2 x y ->
    (2 <= cover_count boxes x y)%nat.
Proof.
  induction boxes as [| b rest IH]; intros i j b1 b2 Hlt Hi Hj H1 H2.
  - destruct i; discriminate.
  - change (b :: rest) with ([b] ++ rest). rewrite cover_count_app.
    destruct j as [| j]; [lia |]. simpl in Hj.
    destruct i as [| i]; simpl in Hi.
    + inversion Hi; subst. rewrite cover_count_one.
      apply in_boxb_spec in H1. rewrite H1.
      apply nth_error_In in Hj.
      pose proof (cover_count_pos rest b2 x y Hj H2). lia.
    + assert (Hr : (2 <= cover_count rest x y)%nat).
      { apply (IH i j b1 b2); [lia | assumption ..]. }
      lia.
Qed.

Lemma within_canvas_in_box img box x y :
  within_canvas img box -> in_box box x y -> on_canvas img x y.
Proof. unfold within_canvas, in_box, on_canvas. lia. Qed.

(** Sound boxes that contain every canvas pixel exactly once form a valid
    partition. *)
Lemma valid_partition_of_count img boxes :
  Forall (sound_box img) boxes ->
  (forall x y, on_canvas img x y -> cover_count boxes x y = 1%nat) ->
  valid_partition img boxes.
Proof.
  intros Hs Hc.
  assert (Hw : Forall (within_canvas img) boxes).
  { eapply Forall_impl; [| exact Hs]. intros b Hb. exact (proj2 Hb). }
  split; [exact Hw |]. split.
  - intros x y. split.
    + intro Hon. apply cover_count_witness. rewrite (Hc x y Hon). lia.
    + intros (box & Hin & Hb). rewrite Forall_forall in Hw.
      apply (within_canvas_in_box img box); auto.
  - intros i j b1 b2 x y Hlt Hi Hj (H1 & H2).
    assert (Hon : on_canvas img x y).
    { rewrite Forall_forall in Hw.
      apply (within_canvas_in_box img b1); [| exact H1].
      apply Hw. eapply nth_error_In. exact Hi. }
    pose proof (cover_count_two boxes x y i j b1 b2 Hlt Hi Hj H1 H2).
    rewrite (Hc x y Hon) in H. lia.
Qed.

(** The part of C1 the code keeps: on an image of at least one pixel and
    with a margin of at least two, whenever the partition builder returns,
    for any number of generations, what it returns is a valid partition of
    the canvas. *)
Lemma boxize_partition_wide_margin img cuts margin depth rng boxes rng' :
  1 <= width img -> 1 <= height img -> 2 <= margin ->
  boxize img cuts margin depth rng = (Ok boxes, rng') ->
  valid_partition img boxes.
Proof.
  intros Hw Hh Hm H. unfold boxize in H.
  assert (Hcanvas : Forall (sound_box img) [canvas img]).
  { constructor; [| constructor].
    unfold sound_box, nonempty, within_canvas, canvas. simpl. lia. }
  apply (fragment_preserves img) in H; [| | exact Hcanvas].
  - destruct H as (Hs & Hc). apply valid_partition_of_count; [exact Hs |].
    intros x y Hon. rewrite Hc, cover_count_one.
    assert (Hin : in_boxb (canvas img) x y = true).
    { apply in_boxb_spec. unfold in_box, canvas, on_canvas in *. simpl. lia. }
    rewrite Hin. reflexivity.
  - intros box r box1 box2 r' Hbox Hsplit.
    apply (split_exact_wide_margin img cuts margin box r box1 box2 r');
      [exact Hm | exact (proj1 Hbox) | exact Hsplit].
Qed.

(** A run with a margin of two that does split: the 6x1 canvas is cut
    after its third pixel. *)
Example boxize_wide_margin_splits :
  fst (boxize img61 1 2 1 (scripted [])) = Ok [mkBox 0 0 0 2; mkBox 0 0 3 5].
Proof. reflexivity. Qed.

(** C1, at a 4x1 image with a margin of one, one cut per axis and one
    generation: the cut is drawn from [1 .. 3], and when it falls on 3,
    the last column, the second box is (Left = 4, Right = 3), outside the
    canvas.  The sequence the builder holds after the step is not a valid
    partition. *)
Theorem boxize_box_leaves_canvas :
  fst (boxize img41 1 1 1 (scripted [0; 2])) =
  Ok [mkBox 0 0 0 3; mkBox 0 0 4 3] /\
  ~ within_canvas img41 (mkBox 0 0 4 3) /\
  ~ valid_partition img41 [mkBox 0 0 0 3; mkBox 0 0 4 3].
Proof.
  split; [reflexivity |].
  assert (Hout : ~ within_canvas img41 (mkBox 0 0 4 3)).
  { unfold within_canvas. simpl. lia. }
  split; [exact Hout |].
  intros (Hb & _). inversion Hb as [| ? ? _ Hb']; subst.
  inversion Hb' as [| ? ? H2 _]; subst. exact (Hout H2).
Qed.

(** C2, at the canvas box of the 3x1 image with a margin of zero and one
    cut per axis: the cut is drawn from [0 .. 3], and when it falls on 2,
    the last column, the pair returned is the whole box and the box
    (Left = 3, Right = 2), which has no pixel.  The pair is not an exact
    split: the second half has no positive area. *)
Theorem split_returns_empty_half :
  fst (split img31 1 0 (canvas img31) (scripted [2])) =
  Ok (Some (canvas img31, mkBox 0 0 3 2)) /\
  is_cut 0 (canvas img31) (canvas img31, mkBox 0 0 3 2) /\
  ~ nonempty (mkBox 0 0 3 2) /\
  ~ exact_split (canvas img31) (canvas img31) (mkBox 0 0 3 2).
Proof.
  split; [reflexivity |].
  split.
  { left. exists 2. simpl. repeat split; lia. }
  assert (Hempty : ~ nonempty (mkBox 0 0 3 2)).
  { unfold nonempty. simpl. lia. }
  split; [exact Hempty |].
  intros (_ & _ & _ & H). exact (Hempty H).
Qed.

(** * Further properties of the code *)

(** ** Colour distance and the size-derived parameters *)


(** X2. For an image size that is not negative, the minimum box edge is a
    tenth of the smaller dimension (the doubled border width never wins the
    [max]), the border width is not negative and at most half of that
    edge, and the edge reaches 2 exactly when the smaller dimension reaches
    20. *)
Theorem minWidth_is_tenth (w h : Z) :
  0 <= w -> 0 <= h ->
  minWidth w h = Z.min w h / 10 /\
  0 <= marginWidth w h /\
  2 * marginWidth w h <= minWidth w h /\
  (2 <= minWidth w h <-> 20 <= Z.min w h).
Proof.
  intros Hw Hh. unfold minWidth, marginWidth.
  set (m := Z.min w h).
  assert (Hm : 0 <= m) by (unfold m; lia).
  assert (H200 : m / 200 = m / 10 / 20)
    by (rewrite Z.div_div by lia; reflexivity).
  assert (Hq : 0 <= m / 10) by (apply Z.div_pos; lia).
  assert (H20 : 20 * (m / 10 / 20) <= m / 10)
    by (apply Z.mul_div_le; lia).
  assert (Hq2 : 0 <= m / 10 / 20) by (apply Z.div_pos; lia).
  rewrite H200.
  split; [lia |]. split; [lia |]. split; [lia |].
  rewrite Z.max_l by lia. split; intro H.
  - assert (2 * 10 <= m); [| lia].
    destruct (Z.lt_ge_cases m 20) as [Hlt | Hge]; [| lia].
    assert (m / 10 < 2) by (apply Z.div_lt_upper_bound; lia). lia.
  - apply Z.div_le_lower_bound; lia.
Qed.

Lemma minWidth_is_tenth_witness :
  minWidth 640 480 = Z.min 640 480 / 10 /\
  0 <= marginWidth 640 480 /\
  2 * marginWidth 640 480 <= minWidth 640 480 /\
  (2 <= minWidth 640 480 <-> 20 <= Z.min 640 480).
Proof. apply (minWidth_is_tenth 640 480); lia. Defined.

(** ** The sample count and the errors of the estimator *)



Lemma mean_color_nonempty sample :
  sample <> [] -> exists c, mean_color sample = Ok c.
Proof.
  intro Hne. unfold mean_color, true_div.
  assert (Hlen : (len sample =? 0) = false).
  { apply Z.eqb_neq. unfold len. destruct sample; [contradiction |].
    simpl length. lia. }
  rewrite Hlen. simpl. eexists. reflexivity.
Qed.

Lemma sampler_range box : 0 <= sampler box <= maxSample.
Proof.
  unfold sampler, maxSample.
  pose proof (Z.abs_nonneg (Left box - Right box + 1)) as Hw.
  pose proof (Z.abs_nonneg (Top box - Bottom box + 1)) as Hh.
  assert (Hp : 0 <= Z.abs (Left box - Right box + 1)
                    * Z.abs (Top box - Bottom box + 1))
    by (apply Z.mul_nonneg_nonneg; assumption).
  lia.
Qed.

(** X3. The sample count lies between 0 and the cap of 100, and it is zero
    exactly for a box with [Right = Left + 1] or [Bottom = Top + 1]. *)
Theorem sampler_zero_iff (box : Box) :
  0 <= sampler box <= maxSample /\
  (sampler box = 0 <->
   Right box = Left box + 1 \/ Bottom box = Top box + 1).
Proof.
  split; [apply sampler_range |].
  unfold sampler, maxSample.
  pose proof (Z.abs_nonneg (Left box - Right box + 1)) as Hw.
  pose proof (Z.abs_nonneg (Top box - Bottom box + 1)) as Hh.
  split.
  - intro Hz.
    assert (Hprod : Z.abs (Left box - Right box + 1)
                    * Z.abs (Top box - Bottom box + 1) = 0).
    { assert (0 <= Z.abs (Left box - Right box + 1)
                   * Z.abs (Top box - Bottom box + 1))
        by (apply Z.mul_nonneg_nonneg; assumption).
      lia. }
    apply Z.mul_eq_0 in Hprod. destruct Hprod as [H0 | H0];
      apply Z.abs_0_iff in H0; lia.
  - intros [H | H].
    + replace (Left box - Right box + 1) with 0 by lia. reflexivity.
    + replace (Top box - Bottom box + 1) with 0 by lia.
      rewrite Z.mul_0_r. reflexivity.
Qed.



(** ** When the estimator succeeds *)

Lemma mapM_total {S A B} (f : A -> M S B) l :
  (forall a s, In a l -> exists b s', f a s = (Ok b, s')) ->
  forall s, exists bs s', mapM f l s = (Ok bs, s').
Proof.
  induction l as [| a l IH]; intros Hf s; simpl.
  - exists [], s. reflexivity.
  - destruct (Hf a s (or_introl eq_refl)) as (b & s1 & Hb).
    destruct (IH (fun a' s' Hin => Hf a' s' (or_intror Hin)) s1)
      as (bs & s2 & Hbs).
    exists (b :: bs), s2.
    rewrite (bind_ok_step _ _ _ _ _ Hb), (bind_ok_step _ _ _ _ _ Hbs).
    reflexivity.
Qed.

Lemma sample_point_total img minx maxx miny maxy i r :
  0 <= minx -> minx <= maxx -> maxx <= width img - 1 ->
  0 <= miny -> miny <= maxy -> maxy <= height img - 1 ->
  exists p r', sample_point img minx maxx miny maxy i r = (Ok p, r').
Proof.
  intros Hx0 Hx Hx1 Hy0 Hy Hy1. unfold sample_point.
  destruct (randint_total minx maxx r Hx) as (x & Ex).
  destruct (randint_total miny maxy (mkRng (draws r) (S (used r))) Hy)
    as (y & Ey).
  pose proof (randint_ok _ _ _ _ _ Ex) as (Bx & _).
  pose proof (randint_ok _ _ _ _ _ Ey) as (By & _).
  rewrite (bind_ok_step _ _ _ _ _ Ex), (bind_ok_step _ _ _ _ _ Ey).
  unfold lift. rewrite getpixel_inside by lia. eauto.
Qed.

Lemma average_total img box rng :
  within_canvas img box -> 0 < sampler box ->
  exists c rng', average img box rng = (Ok c, rng').
Proof.
  intros Hc Hs. unfold within_canvas in Hc. unfold average.
  destruct (mapM_total
              (sample_point img (Z.min (Left box) (Right box))
                 (Z.max (Left box) (Right box))
                 (Z.min (Top box) (Bottom box))
                 (Z.max (Top box) (Bottom box)))
              (range (sampler box))) with (s := rng)
    as (sample & r1 & Hm).
  { intros i s _. apply sample_point_total; lia. }
  rewrite (bind_ok_step _ _ _ _ _ Hm).
  pose proof (mapM_length _ _ _ _ _ Hm) as Hl.
  unfold range in Hl. rewrite length_range2, Z.sub_0_r in Hl.
  destruct (mean_color_nonempty sample) as (c & Hcol).
  { intros ->. simpl in Hl. lia. }
  unfold lift. rewrite Hcol. eauto.
Qed.

Lemma sum_shift l : forall a, fold_left Z.add l a = a + sum l.
Proof.
  unfold sum. induction l as [| v l IH]; intro a; simpl.
  - lia.
  - rewrite IH, (IH v). lia.
Qed.

Lemma sum_bounds lo hi l :
  Forall (fun v => lo <= v <= hi) l ->
  lo * len l <= sum l <= hi * len l.
Proof.
  unfold len. induction 1 as [| v l Hv Hl IH].
  - simpl. unfold sum. simpl. lia.
  - unfold sum in *. simpl fold_left. rewrite sum_shift. unfold sum.
    simpl length. lia.
Qed.

Lemma true_div_bounds lo hi s n :
  0 < n -> lo * n <= s <= hi * n ->
  exists q, true_div s n = Ok q /\ (inject_Z lo <= q <= inject_Z hi)%Q.
Proof.
  intros Hn (Hlo & Hhi). unfold true_div.
  destruct (n =? 0) eqn:E; [apply Z.eqb_eq in E; lia |].
  eexists. split; [reflexivity |].
  assert (HnQ : (0 < inject_Z n)%Q).
  { change 0%Q with (inject_Z 0). rewrite <- Zlt_Qlt. exact Hn. }
  split.
  - apply Qle_shift_div_l; [exact HnQ |].
    rewrite <- inject_Z_mult, <- Zle_Qle. exact Hlo.
  - apply Qle_shift_div_r; [exact HnQ |].
    rewrite <- inject_Z_mult, <- Zle_Qle. exact Hhi.
Qed.

Lemma mean_color_bounds lo hi sample c :
  sample <> [] ->
  Forall (channels_within lo hi) sample ->
  mean_color sample = Ok c ->
  color_within lo hi c.
Proof.
  intros Hne Hall Hc.
  assert (Hn : 0 < len sample).
  { unfold len. destruct sample; [contradiction | simpl length; lia]. }
  assert (Hmap : forall f : Pixel -> Z,
             (forall p, channels_within lo hi p -> lo <= f p <= hi) ->
             lo * len sample <= sum (map f sample) <= hi * len sample).
  { intros f Hf.
    replace (len sample) with (len (map f sample))
      by (unfold len; rewrite length_map; reflexivity).
    apply sum_bounds. rewrite Forall_map.
    eapply Forall_impl; [| exact Hall]. exact Hf. }
  destruct (true_div_bounds lo hi _ _ Hn
              (Hmap red_of (fun p H => proj1 H))) as (r & Er & Br).
  destruct (true_div_bounds lo hi _ _ Hn
              (Hmap green_of (fun p H => proj1 (proj2 H)))) as (g & Eg & Bg).
  destruct (true_div_bounds lo hi _ _ Hn
              (Hmap blue_of (fun p H => proj2 (proj2 H)))) as (b & Eb & Bb).
  unfold mean_color in Hc. rewrite Er, Eg, Eb in Hc. simpl in Hc.
  inversion Hc; subst. unfold color_within. auto.
Qed.

(** X5. On a box whose bounds are coordinates of the image and whose
    sample count is positive, the estimator returns a colour; it consumes
    two raw draws per sample; and when every channel of the buffer lies
    between [lo] and [hi], so does every channel of the returned mean. *)
Theorem average_returns_mean_within (img : Image) (box : Box) (rng : Rng) :
  within_canvas img box -> 0 < sampler box ->
  exists c rng',
    average img box rng = (Ok c, rng') /\
    draws rng' = draws rng /\
    used rng' = (used rng + 2 * Z.to_nat (sampler box))%nat /\
    forall lo hi, image_within lo hi img -> color_within lo hi c.
Proof.
  intros Hc Hs.
  destruct (average_total img box rng Hc Hs) as (c & rng' & Hav).
  exists c, rng'. split; [exact Hav |].
  destruct (average_ok _ _ _ _ _ Hav)
    as (sample & Hlen & Hall & Hmean & Hd & Hu).
  split; [exact Hd |]. split; [exact Hu |].
  intros lo hi Himg.
  apply (mean_color_bounds lo hi sample c).
  - intros ->. simpl in Hlen. lia.
  - eapply Forall_impl; [| exact Hall].
    intros p (x & y & _ & _ & Hp). unfold getpixel in Hp.
    destruct (locate img (x, y)) as [[x' y'] |] eqn:El; [| discriminate].
    inversion Hp; subst. apply locate_some in El. apply Himg; tauto.
  - exact Hmean.
Qed.

Lemma average_returns_mean_within_witness :
  exists c rng',
    average img61 (mkBox 0 0 0 5) (scripted [1; 0; 4]) = (Ok c, rng') /\
    draws rng' = draws (scripted [1; 0; 4]) /\
    used rng' =
    (2 * Z.to_nat (sampler (mkBox 0 0 0 5)))%nat /\
    forall lo hi, image_within lo hi img61 -> color_within lo hi c.
Proof.
  apply (average_returns_mean_within img61 (mkBox 0 0 0 5)).
  - unfold within_canvas. simpl. lia.
  - reflexivity.
Defined.

(** ** What the splitter returns *)

Lemma mapM_nil_inv {S A B} (f : A -> M S B) l s s' :
  mapM f l s = (Ok [], s') -> l = [] /\ s' = s.
Proof.
  intro H. pose proof (mapM_length _ _ _ _ _ H) as Hl.
  destruct l; [| discriminate]. simpl in H. run_inv H. auto.
Qed.

Lemma range_positive n : 0 < n -> range n <> [].
Proof.
  intros Hn E. assert (Hl : length (range n) = Z.to_nat n).
  { unfold range. rewrite length_range2. f_equal. lia. }
  rewrite E in Hl. simpl in Hl. lia.
Qed.

Lemma split_without_candidates img cuts margin box rng :
  cuts <= 0 \/ (~ splittable_x margin box /\ ~ splittable_y margin box) ->
  split img cuts margin box rng = (Ok None, rng).
Proof.
  intros [Hc | (Hx & Hy)].
  - apply split_no_cuts. exact Hc.
  - unfold split. unfold splittable_x in Hx. unfold splittable_y in Hy.
    apply Z.nlt_ge, Z.ltb_ge in Hx. apply Z.nlt_ge, Z.ltb_ge in Hy.
    rewrite Hx, Hy. reflexivity.
Qed.

(** X6. The two outcomes of a split that does not raise.  It returns "no
    split" exactly when it has no candidate, that is when the number of
    cuts is not positive or neither axis passes its margin test, and then
    it draws nothing from the random source.  A pair it returns is one of
    its candidates: the box cut at a position of
    [min + margin .. max + 1 - margin] on an axis that passes its test. *)
Theorem split_outcomes (img : Image) (cuts margin : Z) (box : Box) (rng : Rng) :
  (cuts <= 0 \/ (~ splittable_x margin box /\ ~ splittable_y margin box) ->
   split img cuts margin box rng = (Ok None, rng)) /\
  (forall o rng',
      split img cuts margin box rng = (Ok o, rng') ->
      match o with
      | None =>
          rng' = rng /\
          (cuts <= 0 \/
           (~ splittable_x margin box /\ ~ splittable_y margin box))
      | Some halves => 0 < cuts /\ is_cut margin box halves
      end).
Proof.
  split; [apply split_without_candidates |].
  intros o rng' H. destruct o as [halves |].
  - split; [| apply (split_returns_cut _ _ _ _ _ _ _ H)].
    destruct (Z.lt_ge_cases 0 cuts) as [Hpos | Hle]; [exact Hpos |].
    rewrite split_no_cuts in H by lia. discriminate.
  - unfold split in H.
    bind_inv H as vertical s1 Hv. bind_inv H as horizontal s2 Hh.
    destruct (vertical ++ horizontal) as [| first rest] eqn:Eapp.
    + run_inv H. apply app_eq_nil in Eapp. destruct Eapp as (-> & ->).
      destruct (Z.lt_ge_cases 0 cuts) as [Hpos | Hle].
      * pose proof (range_positive cuts Hpos) as Hr.
        destruct (_ <? _) eqn:E1 in Hv;
          [apply mapM_nil_inv in Hv; destruct Hv; contradiction |].
        destruct (_ <? _) eqn:E2 in Hh;
          [apply mapM_nil_inv in Hh; destruct Hh; contradiction |].
        run_inv Hv. run_inv Hh. split; [reflexivity |]. right.
        apply Z.ltb_ge in E1, E2.
        unfold splittable_x, splittable_y. lia.
      * rewrite (range_nonpositive cuts) in Hv, Hh by lia.
        split; [| left; lia].
        destruct (_ <? _) in Hv; simpl in Hv; run_inv Hv;
          destruct (_ <? _) in Hh; simpl in Hh; run_inv Hh; reflexivity.
    + bind_inv H as firstval s3 Hkey. bind_inv H as best s4 Hscan.
      run_inv H. discriminate.
Qed.

Lemma split_outcomes_witness :
  split img31 1 1 (canvas img31) (scripted [7]) = (Ok None, scripted [7]).
Proof.
  apply (proj1 (split_outcomes img31 1 1 (canvas img31) (scripted [7]))).
  right. unfold splittable_x, splittable_y. simpl. lia.
Defined.

(** X7. With a margin of at least two, a pair returned for a box with
    ordered bounds exactly partitions the box, and the margin bounds the
    halves unevenly: along the cut axis the first half extends over at
    least [margin + 1] pixels and the second over at least [margin - 1],
    the other axis being kept. *)
Theorem split_halves_sizes (img : Image) (cuts margin : Z) (box : Box)
  (rng : Rng) box1 box2 rng' :
  2 <= margin -> nonempty box ->
  split img cuts margin box rng = (Ok (Some (box1, box2)), rng') ->
  exact_split box box1 box2 /\
  ((margin + 1 <= box_width box1 /\ margin - 1 <= box_width box2 /\
    box_width box1 + box_width box2 = box_width box /\
    box_height box1 = box_height box /\ box_height box2 = box_height box) \/
   (margin + 1 <= box_height box1 /\ margin - 1 <= box_height box2 /\
    box_height box1 + box_height box2 = box_height box /\
    box_width box1 = box_width box /\ box_width box2 = box_width box)).
Proof.
  intros Hm Hne H. pose proof (split_returns_cut _ _ _ _ _ _ _ H) as Hcut.
  split; [apply (cut_exact_split margin box (box1, box2)); assumption |].
  destruct Hne as (Hx & Hy). unfold box_width, box_height.
  destruct Hcut as [(cut & Hg & Hc & E) | (cut & Hg & Hc & E)];
    inversion E; subst; simpl.
  - left. rewrite Z.min_l, Z.max_r in Hg, Hc by lia. lia.
  - right. rewrite Z.min_r, Z.max_l in Hg, Hc by lia. lia.
Qed.

Lemma split_halves_sizes_witness :
  exact_split (canvas img61) (mkBox 0 0 0 2) (mkBox 0 0 3 5) /\
  ((2 + 1 <= box_width (mkBox 0 0 0 2) /\ 2 - 1 <= box_width (mkBox 0 0 3 5) /\
    box_width (mkBox 0 0 0 2) + box_width (mkBox 0 0 3 5)
    = box_width (canvas img61) /\
    box_height (mkBox 0 0 0 2) = box_height (canvas img61) /\
    box_height (mkBox 0 0 3 5) = box_height (canvas img61)) \/
   (2 + 1 <= box_height (mkBox 0 0 0 2) /\
    2 - 1 <= box_height (mkBox 0 0 3 5) /\
    box_height (mkBox 0 0 0 2) + box_height (mkBox 0 0 3 5)
    = box_height (canvas img61) /\
    box_width (mkBox 0 0 0 2) = box_width (canvas img61) /\
    box_width (mkBox 0 0 3 5) = box_width (canvas img61))).
Proof.
  apply (split_halves_sizes img61 1 2 (canvas img61) (scripted [])
           (mkBox 0 0 0 2) (mkBox 0 0 3 5)
           (snd (split img61 1 2 (canvas img61) (scripted [])))).
  - lia.
  - unfold nonempty. simpl. lia.
  - reflexivity.
Defined.

(** ** One generation *)

Lemma spawn_from_past splitter boxIndex boxes :
  forall i rng,
    boxIndex < i ->
    spawn_from splitter boxIndex i boxes rng = (Ok boxes, rng).
Proof.
  induction boxes as [| box rest IH]; intros i rng Hlt; simpl.
  - reflexivity.
  - destruct (i =? boxIndex) eqn:E; [apply Z.eqb_eq in E; lia |].
    unfold bind, ret. rewrite IH by lia. reflexivity.
Qed.

Lemma spawn_from_shape splitter boxIndex boxes :
  forall i rng out rng',
    spawn_from splitter boxIndex i boxes rng = (Ok out, rng') ->
    out = boxes \/
    exists pre box post box1 box2 r r2,
      boxes = pre ++ box :: post /\
      len pre = boxIndex - i /\
      out = pre ++ box1 :: box2 :: post /\
      splitter box r = (Ok (Some (box1, box2)), r2).
Proof.
  induction boxes as [| box rest IH]; intros i rng out rng' H.
  - simpl in H. run_inv H. left. reflexivity.
  - cbn [spawn_from] in H.
    bind_inv H as here s1 Hhere. bind_inv H as more s2 Hmore. run_inv H.
    destruct (i =? boxIndex) eqn:E.
    + apply Z.eqb_eq in E. subst i.
      rewrite spawn_from_past in Hmore by lia.
      injection Hmore as <- <-.
      bind_inv Hhere as split_result s3 Hsplit.
      destruct split_result as [[box1 box2] |]; run_inv Hhere.
      * right. exists [], box, rest, box1, box2. do 2 eexists.
        repeat split; [unfold len; simpl; lia | exact Hsplit].
      * left. reflexivity.
    + run_inv Hhere. apply IH in Hmore.
      destruct Hmore as [-> | (pre & b & post & b1 & b2 & r & r2 &
                               -> & Hlen & -> & Hs)].
      * left. reflexivity.
      * right. exists (box :: pre), b, post, b1, b2, r, r2.
        repeat split; [| exact Hs].
        unfold len in *. simpl length. lia.
Qed.

(** X8. One generation on a sequence of boxes.  On the empty sequence
    [spawn] raises (the index is drawn from an empty range).  When it
    returns, either the sequence is unchanged, or exactly one box, the one
    at the drawn index, has been replaced in place by the two halves the
    splitter returned for it, first half first; every other box keeps its
    position relative to the others. *)
Theorem spawn_replaces_one (splitter : Box -> M Rng (option (Box * Box))) :
  (forall rng, spawn splitter [] rng = (Raise ValueError, rng)) /\
  (forall boxes rng out rng',
      spawn splitter boxes rng = (Ok out, rng') ->
      out = boxes \/
      exists pre box post box1 box2 r r2,
        boxes = pre ++ box :: post /\
        0 <= len pre < len boxes /\
        out = pre ++ box1 :: box2 :: post /\
        splitter box r = (Ok (Some (box1, box2)), r2)).
Proof.
  split; [intro rng; reflexivity |].
  intros boxes rng out rng' H. unfold spawn in H.
  bind_inv H as boxIndex s1 Hidx.
  apply spawn_from_shape in H.
  destruct H as [-> | (pre & b & post & b1 & b2 & r & r2 &
                       Hb & Hlen & Ho & Hs)]; [left; reflexivity |].
  right. exists pre, b, post, b1, b2, r, r2.
  repeat split; try assumption.
  - unfold len. lia.
  - rewrite Hb. unfold len. rewrite length_app. simpl length. lia.
Qed.

Lemma spawn_replaces_one_witness :
  [mkBox 0 0 0 2; mkBox 0 0 3 5] = [canvas img61] \/
  exists pre box post box1 box2 r r2,
    [canvas img61] = pre ++ box :: post /\
    0 <= len pre < len [canvas img61] /\
    [mkBox 0 0 0 2; mkBox 0 0 3 5] = pre ++ box1 :: box2 :: post /\
    split img61 1 2 box r = (Ok (Some (box1, box2)), r2).
Proof.
  apply (proj2 (spawn_replaces_one (fun b => split img61 1 2 b))
           [canvas img61] (scripted [])
           [mkBox 0 0 0 2; mkBox 0 0 3 5]
           (snd (spawn (fun b => split img61 1 2 b) [canvas img61]
                   (scripted [])))).
  reflexivity.
Defined.

(** ** The partition builder with a margin of at least two *)

Lemma spawn_length splitter boxes rng out rng' :
  spawn splitter boxes rng = (Ok out, rng') ->
  len boxes <= len out <= len boxes + 1.
Proof.
  intro H. unfold spawn in H. bind_inv H as boxIndex s1 Hidx.
  apply spawn_from_shape in H.
  destruct H as [-> | (pre & b & post & b1 & b2 & r & r2 &
                       -> & _ & -> & _)]; [lia |].
  unfold len. rewrite !length_app. simpl length. lia.
Qed.

Lemma fragment_length splitter steps :
  forall boxes rng out rng',
    fragment splitter steps boxes rng = (Ok out, rng') ->
    len boxes <= len out <= len boxes + Z.of_nat steps.
Proof.
  induction steps as [| steps IH]; intros boxes rng out rng' H.
  - simpl in H. run_inv H. lia.
  - cbn [fragment] in H. bind_inv H as more s1 Hspawn.
    apply spawn_length in Hspawn. apply IH in H. lia.
Qed.

(** X9. On an image of at least one pixel and with a margin of at least
    two, whatever the partition builder returns, for any depth, is a valid
    partition of the canvas into boxes of positive area, of at least one
    box and at most one more than the depth. *)
Theorem boxize_builds_partition (img : Image) (cuts margin depth : Z)
  (rng : Rng) boxes rng' :
  1 <= width img -> 1 <= height img -> 2 <= margin ->
  boxize img cuts margin depth rng = (Ok boxes, rng') ->
  valid_partition img boxes /\
  Forall nonempty boxes /\
  1 <= len boxes <= Z.max depth 0 + 1.
Proof.
  intros Hw Hh Hm H.
  split; [apply (boxize_partition_wide_margin _ _ _ _ _ _ _ Hw Hh Hm H) |].
  unfold boxize in H. split.
  - apply (fragment_preserves img) in H.
    + destruct H as (Hs & _). eapply Forall_impl; [| exact Hs].
      intros b Hb. exact (proj1 Hb).
    + intros box r box1 box2 r' Hbox Hsplit.
      apply (split_exact_wide_margin img cuts margin box r box1 box2 r');
        [exact Hm | exact (proj1 Hbox) | exact Hsplit].
    + constructor; [| constructor].
      unfold sound_box, nonempty, within_canvas, canvas. simpl. lia.
  - apply fragment_length in H. unfold len in *. simpl length in H. lia.
Qed.

Lemma boxize_builds_partition_witness :
  valid_partition img61 [mkBox 0 0 0 2; mkBox 0 0 3 5] /\
  Forall nonempty [mkBox 0 0 0 2; mkBox 0 0 3 5] /\
  1 <= len [mkBox 0 0 0 2; mkBox 0 0 3 5] <= Z.max 1 0 + 1.
Proof.
  apply (boxize_builds_partition img61 1 2 1 (scripted [])
           [mkBox 0 0 0 2; mkBox 0 0 3 5]
           (snd (boxize img61 1 2 1 (scripted [])))).
  - simpl. lia.
  - simpl. lia.
  - lia.
  - reflexivity.
Defined.

(** ** Generations that cannot raise *)

Lemma roomy_sampler_pos img d box : roomy img d box -> 0 < sampler box.
Proof.
  intros (((Hx & Hy) & _) & Hw & _). unfold sampler, maxSample.
  assert (H1 : 1 <= Z.abs (Left box - Right box + 1)) by lia.
  assert (H2 : 1 <= Z.abs (Top box - Bottom box + 1)) by lia.
  assert (1 * 1 <= Z.abs (Left box - Right box + 1)
                   * Z.abs (Top box - Bottom box + 1))
    by (apply Z.mul_le_mono_nonneg; lia).
  lia.
Qed.

Lemma cut_roomy img margin d box halves :
  4 <= margin -> d <= margin - 1 ->
  roomy img d box -> is_cut margin box halves ->
  roomy img d (fst halves) /\ roomy img d (snd halves).
Proof.
  intros Hm Hd (((Hx & Hy) & Hc) & Hw & Hdw & Hdh).
  unfold within_canvas in Hc. unfold box_width, box_height in Hdw, Hdh.
  intros [(cut & Hg & Hcut & ->) | (cut & Hg & Hcut & ->)].
  - rewrite Z.min_l, Z.max_r in Hg, Hcut by lia.
    unfold roomy, sound_box, nonempty, within_canvas, box_width, box_height.
    simpl. repeat split; lia.
  - rewrite Z.min_r, Z.max_l in Hg, Hcut by lia.
    unfold roomy, sound_box, nonempty, within_canvas, box_width, box_height.
    simpl. repeat split; lia.
Qed.

Lemma split_key_total img d halves rng :
  roomy img d (fst halves) -> roomy img d (snd halves) ->
  exists v rng', split_key img halves rng = (Ok v, rng').
Proof.
  intros H1 H2. unfold split_key.
  destruct (average_total img (fst halves) rng (proj2 (proj1 H1))
              (roomy_sampler_pos _ _ _ H1)) as (c1 & r1 & E1).
  destruct (average_total img (snd halves) r1 (proj2 (proj1 H2))
              (roomy_sampler_pos _ _ _ H2)) as (c2 & r2 & E2).
  rewrite (bind_ok_step _ _ _ _ _ E1), (bind_ok_step _ _ _ _ _ E2).
  eexists. eexists. reflexivity.
Qed.

Lemma max_scan_total {S A} (key : A -> M S Q) rest :
  (forall a s, In a rest -> exists v s', key a s = (Ok v, s')) ->
  forall best bestval s,
    exists r s', max_scan key best bestval rest s = (Ok r, s').
Proof.
  induction rest as [| item rest IH]; intros Hk best bestval s; simpl.
  - eexists. eexists. reflexivity.
  - destruct (Hk item s (or_introl eq_refl)) as (v & s1 & Ev).
    rewrite (bind_ok_step _ _ _ _ _ Ev).
    destruct (Qlt_le_dec bestval v);
      apply IH; intros a s' Hin; apply Hk; right; exact Hin.
Qed.

Lemma cuts_total (gen : Z -> M Rng (Box * Box)) (guard : bool) cuts rng :
  (guard = true -> forall i s, exists p s', gen i s = (Ok p, s')) ->
  exists l rng',
    (if guard then mapM gen (range cuts) else ret []) rng = (Ok l, rng').
Proof.
  intro Hg. destruct guard.
  - apply mapM_total. intros i s _. apply Hg. reflexivity.
  - eexists. eexists. reflexivity.
Qed.

Lemma split_total_roomy img cuts margin d box rng :
  4 <= margin -> d <= margin - 1 -> roomy img d box ->
  exists o rng',
    split img cuts margin box rng = (Ok o, rng') /\
    match o with
    | Some halves => roomy img d (fst halves) /\ roomy img d (snd halves)
    | None => True
    end.
Proof.
  intros Hm Hd Hbox.
  assert (Hex : exists o rng', split img cuts margin box rng = (Ok o, rng')).
  { unfold split.
    destruct (cuts_total
                (vertical_cut margin (Z.min (Left box) (Right box))
                   (Z.max (Left box) (Right box)) box)
                (Z.min (Left box) (Right box) + margin
                 <? Z.max (Left box) (Right box) - margin) cuts rng)
      as (vertical & r1 & Ev).
    { intros Hg i s. apply Z.ltb_lt in Hg. unfold vertical_cut.
      destruct (randint_total (Z.min (Left box) (Right box) + margin)
                  (Z.max (Left box) (Right box) + 1 - margin) s) as (c & Ec);
        [lia |].
      rewrite (bind_ok_step _ _ _ _ _ Ec). eexists. eexists. reflexivity. }
    destruct (cuts_total
                (horizontal_cut margin (Z.min (Top box) (Bottom box))
                   (Z.max (Top box) (Bottom box)) box)
                (Z.min (Top box) (Bottom box) + margin
                 <? Z.max (Top box) (Bottom box) - margin) cuts r1)
      as (horizontal & r2 & Eh).
    { intros Hg i s. apply Z.ltb_lt in Hg. unfold horizontal_cut.
      destruct (randint_total (Z.min (Top box) (Bottom box) + margin)
                  (Z.max (Top box) (Bottom box) + 1 - margin) s) as (c & Ec);
        [lia |].
      rewrite (bind_ok_step _ _ _ _ _ Ec). eexists. eexists. reflexivity. }
    rewrite (bind_ok_step _ _ _ _ _ Ev), (bind_ok_step _ _ _ _ _ Eh).
    assert (Hall : Forall (is_cut margin box) (vertical ++ horizontal)).
    { apply Forall_app. split.
      - destruct (_ <? _) eqn:E in Ev.
        + apply Z.ltb_lt in E. eapply mapM_Forall; [| exact Ev].
          intros i s p s' _ Hcut. unfold vertical_cut in Hcut.
          bind_inv Hcut as cut s3 Hr. run_inv Hcut.
          apply randint_ok in Hr. left. exists cut. tauto.
        + run_inv Ev. constructor.
      - destruct (_ <? _) eqn:E in Eh.
        + apply Z.ltb_lt in E. eapply mapM_Forall; [| exact Eh].
          intros i s p s' _ Hcut. unfold horizontal_cut in Hcut.
          bind_inv Hcut as cut s3 Hr. run_inv Hcut.
          apply randint_ok in Hr. right. exists cut. tauto.
        + run_inv Eh. constructor. }
    rewrite Forall_forall in Hall.
    assert (Hkey : forall a s, In a (vertical ++ horizontal) ->
                     exists v s', split_key img a s = (Ok v, s')).
    { intros a s Hin.
      destruct (cut_roomy img margin d box a Hm Hd Hbox (Hall a Hin)).
      apply (split_key_total img d); assumption. }
    destruct (vertical ++ horizontal) as [| first rest].
    - eexists. eexists. reflexivity.
    - destruct (Hkey first r2 (or_introl eq_refl)) as (v & r3 & Ek).
      rewrite (bind_ok_step _ _ _ _ _ Ek).
      destruct (max_scan_total (split_key img) rest
                  (fun a s Hin => Hkey a s (or_intror Hin)) first v r3)
        as (best & r4 & Es).
      rewrite (bind_ok_step _ _ _ _ _ Es). eexists. eexists. reflexivity. }
  destruct Hex as (o & rng' & Ho). exists o, rng'. split; [exact Ho |].
  destruct o as [halves |]; [| exact I].
  apply (cut_roomy img margin d box halves Hm Hd Hbox).
  apply (split_returns_cut _ _ _ _ _ _ _ Ho).
Qed.

Section SpawnTotal.

Variable P : Box -> Prop.
Variable splitter : Box -> M Rng (option (Box * Box)).

(** On a box with [P] the splitter returns, and its halves have [P]. *)
Hypothesis splitter_total :
  forall box rng,
    P box ->
    exists o rng',
      splitter box rng = (Ok o, rng') /\
      match o with
      | Some halves => P (fst halves) /\ P (snd halves)
      | None => True
      end.

Lemma spawn_from_total boxIndex boxes :
  forall i rng,
    Forall P boxes ->
    exists out rng',
      spawn_from splitter boxIndex i boxes rng = (Ok out, rng') /\
      Forall P out.
Proof.
  induction boxes as [| box rest IH]; intros i rng Hall.
  - exists [], rng. split; [reflexivity | constructor].
  - inversion Hall as [| ? ? Hbox Hrest]; subst. cbn [spawn_from].
    assert (Hhere : exists here r1,
               (if i =? boxIndex
                then split_result <- splitter box ;;
                     match split_result with
                     | Some (box1, box2) => ret [box1; box2]
                     | None => ret [box]
                     end
                else ret [box]) rng = (Ok here, r1) /\ Forall P here).
    { destruct (i =? boxIndex).
      - destruct (splitter_total box rng Hbox) as (o & r1 & Eo & Ho).
        rewrite (bind_ok_step _ _ _ _ _ Eo).
        destruct o as [[box1 box2] |].
        + exists [box1; box2], r1. split; [reflexivity |].
          simpl in Ho. destruct Ho.
          repeat (apply Forall_cons; [assumption |]); apply Forall_nil.
        + exists [box], r1. split; [reflexivity |].
          apply Forall_cons; [assumption | apply Forall_nil].
      - exists [box], rng. split; [reflexivity |].
        apply Forall_cons; [assumption | apply Forall_nil]. }
    destruct Hhere as (here & r1 & Ehere & Hhere).
    destruct (IH (i + 1) r1 Hrest) as (more & r2 & Emore & Hmore).
    exists (here ++ more), r2.
    rewrite (bind_ok_step _ _ _ _ _ Ehere), (bind_ok_step _ _ _ _ _ Emore).
    split; [reflexivity | apply Forall_app; split; assumption].
Qed.

Lemma spawn_total boxes rng :
  boxes <> [] -> Forall P boxes ->
  exists out rng',
    spawn splitter boxes rng = (Ok out, rng') /\
    out <> [] /\ Forall P out.
Proof.
  intros Hne Hall.
  assert (Hcount : 0 <= len boxes - 1).
  { unfold len. destruct boxes; [contradiction | simpl length; lia]. }
  destruct (randint_total 0 (len boxes - 1) rng Hcount) as (k & Ek).
  destruct (spawn_from_total k boxes 0 (mkRng (draws rng) (S (used rng)))
              Hall) as (more & r1 & Emore & Hmore).
  assert (Espawn : spawn splitter boxes rng = (Ok more, r1)).
  { unfold spawn. rewrite (bind_ok_step _ _ _ _ _ Ek). exact Emore. }
  exists more, r1. split; [exact Espawn |]. split; [| exact Hmore].
  apply spawn_length in Espawn. intros ->.
  unfold len in Espawn, Hcount. simpl length in Espawn. lia.
Qed.

End SpawnTotal.

Lemma canvas_roomy img d :
  1 <= width img -> 1 <= height img -> width img <> 2 ->
  d <= width img -> d <= height img ->
  roomy img d (canvas img).
Proof.
  intros Hw Hh H2 Hdw Hdh.
  unfold roomy, sound_box, nonempty, within_canvas, box_width, box_height,
    canvas.
  simpl. repeat split; lia.
Qed.

(** X10. One generation of the partition builder never raises on boxes
    it can work on, and hands such boxes to the next generation.  The
    canvas of an image of at least one pixel that is not exactly two
    pixels wide is such a box; and with a margin of at least four, on a
    non-empty list of boxes that lie on the canvas with ordered bounds,
    are not two pixels wide and are at least [d <= margin - 1] pixels
    wide and high, [spawn] returns, for every number of cuts and every
    random source, a non-empty list of boxes of the same kind, each with
    a positive sample count. *)
Theorem spawn_never_raises :
  (forall (img : Image) (d : Z),
      1 <= width img -> 1 <= height img -> width img <> 2 ->
      d <= width img -> d <= height img ->
      roomy img d (canvas img)) /\
  (forall (img : Image) (cuts margin d : Z) (boxes : list Box) (rng : Rng),
      4 <= margin -> d <= margin - 1 ->
      boxes <> [] -> Forall (roomy img d) boxes ->
      exists out rng',
        spawn (fun b => split img cuts margin b) boxes rng = (Ok out, rng') /\
        out <> [] /\
        Forall (roomy img d) out /\
        Forall (fun box => within_canvas img box /\ 0 < sampler box) out).
Proof.
  split; [exact canvas_roomy |].
  intros img cuts margin d boxes rng Hm Hd Hne Hall.
  destruct (spawn_total (roomy img d) (fun b => split img cuts margin b))
    with (boxes := boxes) (rng := rng)
    as (out & rng' & Hrun & Hout & Hroomy); try assumption.
  { intros box r Hbox. apply split_total_roomy; assumption. }
  exists out, rng'. split; [exact Hrun |]. split; [exact Hout |].
  split; [exact Hroomy |].
  eapply Forall_impl; [| exact Hroomy].
  intros box Hbox. split.
  - exact (proj2 (proj1 Hbox)).
  - apply (roomy_sampler_pos img d). exact Hbox.
Qed.

Lemma spawn_never_raises_witness :
  roomy img1010 1 (canvas img1010) /\
  exists out rng',
    spawn (fun b => split img1010 3 4 b) [canvas img1010]
      (scripted [3; 1; 4; 1; 5; 9; 2; 6]) = (Ok out, rng') /\
    out <> [] /\
    Forall (roomy img1010 1) out /\
    Forall (fun box => within_canvas img1010 box /\ 0 < sampler box) out.
Proof.
  destruct spawn_never_raises as (Hcanvas & Hstep).
  assert (Hc : roomy img1010 1 (canvas img1010)).
  { apply (Hcanvas img1010 1); simpl; lia. }
  split; [exact Hc |].
  apply (Hstep img1010 3 4 1); try lia.
  - discriminate.
  - apply Forall_cons; [exact Hc | apply Forall_nil].
Defined.

(** ** What every run keeps of the buffer *)

Lemma bind_invariant {S A B} (P : S -> Prop) (c : M S A) (k : A -> M S B) s :
  P (snd (c s)) ->
  (forall a s1, c s = (Ok a, s1) -> P (snd (k a s1))) ->
  P (snd (bind c k s)).
Proof.
  intros Hc Hk. unfold bind. destruct (c s) as [[a | e] s1].
  - apply Hk. reflexivity.
  - exact Hc.
Qed.

Lemma forM__invariant {S A} (P : S -> Prop) (f : A -> M S unit) l :
  (forall a s, In a l -> P s -> P (snd (f a s))) ->
  forall s, P s -> P (snd (forM_ f l s)).
Proof.
  induction l as [| a l IH]; intros Hf s Hs; simpl.
  - exact Hs.
  - apply bind_invariant.
    + apply Hf; [left; reflexivity | exact Hs].
    + intros u s1 E. apply IH.
      * intros a' s' Hin. apply Hf. right. exact Hin.
      * replace s1 with (snd (f a s)) by (rewrite E; reflexivity).
        apply Hf; [left; reflexivity | exact Hs].
Qed.

Lemma putpixel_kept w h (ranged : Prop) xy color img :
  (ranged -> channels_within 0 255 color) ->
  kept w h ranged img -> kept w h ranged (snd (putpixel xy color img)).
Proof.
  intros Hcol (Hw & Hh & Hr). unfold putpixel.
  destruct (locate img xy) as [[x y] |]; simpl.
  - split; [exact Hw |]. split; [exact Hh |].
    intros R x' y' Hx Hy. simpl in Hx, Hy |- *.
    destruct ((x' =? x) && (y' =? y)).
    + apply Hcol. exact R.
    + apply (Hr R); assumption.
  - split; [exact Hw |]. split; [exact Hh | exact Hr].
Qed.

Lemma borderize_kept w h ranged margin boxes img :
  kept w h ranged img -> kept w h ranged (snd (borderize margin boxes img)).
Proof.
  intro Hk. unfold borderize.
  apply forM__invariant; [| exact Hk].
  intros box s _ Hs. apply forM__invariant; [| exact Hs].
  intros xy s' _ Hs'. apply putpixel_kept; [| exact Hs'].
  intros _. unfold channels_within, black, red_of, green_of, blue_of.
  simpl. lia.
Qed.

Lemma paint_box_kept w h (ranged : Prop) box color img :
  (ranged -> channels_within 0 255 color) ->
  kept w h ranged img -> kept w h ranged (snd (paint_box (box, color) img)).
Proof.
  intros Hcol Hk. unfold paint_box.
  apply forM__invariant; [| exact Hk].
  intros x s _ Hs. apply forM__invariant; [| exact Hs].
  intros y s' _ Hs'. rewrite paint_pixel_putpixel.
  apply putpixel_kept; assumption.
Qed.

Lemma contrastize_range g c p :
  has_sign false g -> color_within 0 255 c -> contrastize g c = Ok p ->
  channels_within 0 255 p.
Proof.
  intros Hg Hc H. destruct c as [[r gr] b].
  destruct Hc as ((Hr & _) & (Hgr & _) & (Hb & _)).
  change (inject_Z 0) with 0%Q in Hr, Hgr, Hb.
  apply contrastize_ok in H. cbn [fst snd] in H.
  destruct H as (Er & Eg & Eb).
  apply roundize_range in Er, Eg, Eb;
    try exact Hg; try (apply b64_of_Q_nonneg; assumption).
  unfold channels_within. lia.
Qed.

Lemma positive_has_sign g :
  SFltb (S754_zero false) g = true -> has_sign false g.
Proof.
  destruct g as [s | [|] | | [|] m e]; simpl; intro H;
    try discriminate; reflexivity.
Qed.

Lemma average_color_within lo hi img box r c r' :
  image_within lo hi img -> average img box r = (Ok c, r') ->
  color_within lo hi c.
Proof.
  intros Himg Hav.
  destruct (average_ok _ _ _ _ _ Hav) as (sample & Hlen & Hall & Hmean & _).
  apply (mean_color_bounds lo hi sample c).
  - intros ->. discriminate Hmean.
  - eapply Forall_impl; [| exact Hall].
    intros p (x & y & _ & _ & Hp). unfold getpixel in Hp.
    destruct (locate img (x, y)) as [[x' y'] |] eqn:El; [| discriminate].
    inversion Hp; subst. apply locate_some in El. apply Himg; tauto.
  - exact Hmean.
Qed.

Lemma colorize_kept w h (ranged : Prop) white contrast boxes world :
  (ranged -> has_sign false contrast) ->
  kept w h ranged (fst world) ->
  kept w h ranged (fst (snd (colorize white contrast boxes world))).
Proof.
  intros Hr Hk. unfold colorize. unfold bind at 1. unfold lift at 1.
  destruct (product <~ float_mul_int white (len boxes) ;; py_int product)
    as [whitened | e]; cbn [fst snd]; [| exact Hk].
  unfold bind at 1. unfold the_image.
  unfold bind, on_rng. cbn [fst snd].
  destruct (choose_colors (fst world) whitened contrast 0 boxes (snd world))
    as [[colors | e] r1] eqn:E; cbn [fst snd]; [| exact Hk].
  unfold on_image. cbn [fst snd].
  destruct (forM_ paint_box colors (fst world)) as [o img1] eqn:Ep.
  cbn [fst snd].
  replace img1 with (snd (forM_ paint_box colors (fst world)))
    by (rewrite Ep; reflexivity).
  apply forM__invariant; [| exact Hk].
  intros [box color] s Hin Hs. apply paint_box_kept; [| exact Hs].
  intro R. apply choose_colors_ok in E. destruct E as (_ & Hentries).
  apply In_nth_error in Hin. destruct Hin as (j & Hj).
  destruct (Hentries j box color Hj) as (Hwhite & Hquant).
  destruct (Z.lt_ge_cases (0 + Z.of_nat j) whitened) as [Hlt | Hge].
  - rewrite (Hwhite Hlt).
    unfold channels_within, pure_white, red_of, green_of, blue_of.
    simpl. lia.
  - destruct (Hquant Hge) as (avg & r2 & r3 & Hav & Hc).
    apply (contrastize_range contrast avg); [exact (Hr R) | | exact Hc].
    apply (average_color_within 0 255 (fst world) box r2 avg r3);
      [exact (proj2 (proj2 Hk) R) | exact Hav].
Qed.

(** X11. Whatever the configuration and whether or not a pass raises, the
    pipeline leaves the buffer with the size it had; and when the grain is
    positive and every channel of the buffer is in 0..255 at the start,
    every channel is in 0..255 at the end. *)
Theorem pipeline_keeps_buffer (cuts edges depth : Z)
  (white contrast : float) (margin : Z) (img : Image) (rng : Rng) :
  let out :=
    fst (snd (pipeline cuts edges depth white contrast margin (img, rng))) in
  width out = width img /\ height out = height img /\
  (SFltb (S754_zero false) contrast = true ->
   image_within 0 255 img -> image_within 0 255 out).
Proof.
  intro out.
  assert (Hk : kept (width img) (height img)
                 (has_sign false contrast /\ image_within 0 255 img) out).
  { unfold out, pipeline. unfold bind at 1. unfold the_image. cbn [fst snd].
    assert (H0 : kept (width img) (height img)
                   (has_sign false contrast /\ image_within 0 255 img) img).
    { split; [reflexivity |]. split; [reflexivity | tauto]. }
    unfold bind at 1. unfold on_rng at 1. cbn [fst snd].
    destruct (boxize img cuts edges depth rng) as [[boxes | e] r1];
      cbn [fst snd]; [| exact H0].
    unfold bind.
    destruct (colorize white contrast boxes (img, r1)) as [o w1] eqn:Ec.
    assert (H1 : kept (width img) (height img)
                   (has_sign false contrast /\ image_within 0 255 img) (fst w1)).
    { replace w1 with (snd (colorize white contrast boxes (img, r1)))
        by (rewrite Ec; reflexivity).
      apply colorize_kept; [tauto | exact H0]. }
    destruct o as [u | e]; [| exact H1].
    unfold on_image. cbn [fst snd].
    destruct (borderize margin boxes (fst w1)) as [o2 img2] eqn:Eb.
    cbn [fst snd].
    replace img2 with (snd (borderize margin boxes (fst w1)))
      by (rewrite Eb; reflexivity).
    apply borderize_kept. exact H1. }
  destruct Hk as (Hw & Hh & Hr).
  split; [exact Hw |]. split; [exact Hh |]. intros Hc Hi. apply Hr.
  split; [apply positive_has_sign; exact Hc | exact Hi].
Qed.

Lemma pipeline_keeps_buffer_witness :
  let out :=
    fst (snd (pipeline 1 2 1 (b64_of_Q (1 # 2)) (b64_of_Q 32) 1
                (img61, scripted []))) in
  width out = width img61 /\ height out = height img61 /\
  image_within 0 255 out.
Proof.
  intro out.
  destruct (pipeline_keeps_buffer 1 2 1 (b64_of_Q (1 # 2)) (b64_of_Q 32) 1
              img61 (scripted []))
    as (Hw & Hh & Hr).
  split; [exact Hw |]. split; [exact Hh |]. apply Hr.
  - reflexivity.
  - intros x y Hx Hy.
    unfold channels_within, red_of, green_of, blue_of, img61 in *.
    cbn [pixels width height fst snd] in *. lia.
Defined.

(** ** The exceptions of the recolourer and of the border renderer *)

Lemma in_box_coordinates box x y :
  In (x, y) (box_coordinates box) <-> in_box box x y.
Proof.
  unfold box_coordinates, in_box. rewrite in_flat_map. split.
  - intros (x0 & Hx & Hin). apply in_range2 in Hx.
    apply in_map_iff in Hin. destruct Hin as (y0 & E & Hy).
    apply in_range2 in Hy. inversion E; subst. lia.
  - intros (Hx & Hy). exists x. split; [apply in_range2; lia |].
    apply in_map_iff. exists y. split; [reflexivity | apply in_range2; lia].
Qed.

Lemma write_all_total color l :
  forall img,
    (forall x y, In (x, y) l -> 0 <= x < width img /\ 0 <= y < height img) ->
    exists img', forM_ (fun xy => putpixel xy color) l img = (Ok tt, img').
Proof.
  induction l as [| [x y] l IH]; intros img Hin; simpl.
  - eexists. reflexivity.
  - destruct (Hin x y (or_introl eq_refl)) as (Hx & Hy).
    assert (E : exists img1, putpixel (x, y) color img = (Ok tt, img1) /\
                             width img1 = width img /\
                             height img1 = height img).
    { unfold putpixel. rewrite locate_inside by assumption.
      eexists. split; [reflexivity |]. split; reflexivity. }
    destruct E as (img1 & E1 & Hw & Hh).
    rewrite (bind_ok_step _ _ _ _ _ E1). apply IH.
    intros x' y' Hin'. rewrite Hw, Hh. apply Hin. right. exact Hin'.
Qed.

Lemma paint_all_total colors :
  forall img,
    Forall (fun entry => within_canvas img (fst entry)) colors ->
    exists img', forM_ paint_box colors img = (Ok tt, img').
Proof.
  induction colors as [| [box color] colors IH]; intros img Hall.
  - eexists. reflexivity.
  - inversion Hall as [| ? ? Hbox Hrest]; subst. cbn [forM_ fst] in *.
    destruct (write_all_total color (box_coordinates box) img) as (img1 & E1).
    { intros x y Hin. apply in_box_coordinates in Hin.
      unfold within_canvas in Hbox. unfold in_box in Hin. lia. }
    rewrite <- paint_box_unfold in E1.
    rewrite (bind_ok_step _ _ _ _ _ E1).
    rewrite paint_box_unfold in E1. apply write_all_ok in E1.
    destruct E1 as (Hw & Hh & _). apply IH.
    eapply Forall_impl; [| exact Hrest].
    intros e He. unfold within_canvas in *. rewrite Hw, Hh. exact He.
Qed.

Lemma b64_of_Q_not_nan q : b64_of_Q q <> S754_nan.
Proof.
  unfold b64_of_Q.
  apply (has_sign_not_nan (Qnum q <? 0)), b64_ratio_sign.
Qed.

Lemma contrastize_outcome s m e c :
  (exists p, contrastize (S754_finite s m e) c = Ok p) \/
  contrastize (S754_finite s m e) c = Raise OverflowError.
Proof.
  destruct c as [[r g] b]. unfold contrastize.
  destruct (roundize_outcome (b64_of_Q r) s m e (b64_of_Q_not_nan r))
    as [(zr & Er) | Er]; rewrite Er; cbn [obind]; [| auto].
  destruct (roundize_outcome (b64_of_Q g) s m e (b64_of_Q_not_nan g))
    as [(zg & Eg) | Eg]; rewrite Eg; cbn [obind]; [| auto].
  destruct (roundize_outcome (b64_of_Q b) s m e (b64_of_Q_not_nan b))
    as [(zb & Eb) | Eb]; rewrite Eb; cbn [obind]; [| auto].
  left. eexists. reflexivity.
Qed.

Lemma choose_colors_outcome img whitened s m e boxes :
  Forall (fun box => within_canvas img box /\ 0 < sampler box) boxes ->
  forall i rng,
    exists o rng',
      choose_colors img whitened (S754_finite s m e) i boxes rng = (o, rng') /\
      ((exists colors, o = Ok colors) \/ o = Raise OverflowError).
Proof.
  intro Hall. induction Hall as [| box rest (Hc & Hs) _ IH]; intros i rng.
  - exists (Ok []), rng. split; [reflexivity |]. left. eauto.
  - cbn [choose_colors].
    destruct (average_total img box rng Hc Hs) as (avg & r1 & Ea).
    rewrite (bind_ok_step _ _ _ _ _ Ea).
    assert (Ecol : (exists color,
                       (if i <? whitened then ret pure_white
                        else lift (contrastize (S754_finite s m e) avg)) r1
                       = (Ok color, r1)) \/
                   (if i <? whitened then ret pure_white
                    else lift (contrastize (S754_finite s m e) avg)) r1
                   = (Raise OverflowError, r1)).
    { destruct (i <? whitened); [left; eexists; reflexivity |].
      unfold lift.
      destruct (contrastize_outcome s m e avg) as [(p & Ep) | Ep];
        rewrite Ep; [left; eexists; reflexivity | right; reflexivity]. }
    destruct Ecol as [(color & Ecol) | Ecol].
    + rewrite (bind_ok_step _ _ _ _ _ Ecol).
      destruct (IH (i + 1) r1) as (o & r2 & Er & Ho).
      destruct Ho as [(colors & ->) | ->].
      * rewrite (bind_ok_step _ _ _ _ _ Er).
        eexists. eexists. split; [reflexivity |]. left. eauto.
      * rewrite (bind_raise_step _ _ _ _ _ Er).
        eexists. eexists. split; [reflexivity |]. right. reflexivity.
    + rewrite (bind_raise_step _ _ _ _ _ Ecol).
      eexists. eexists. split; [reflexivity |]. right. reflexivity.
Qed.

Lemma whitened_outcome white n :
  finite_float white ->
  (exists k, (product <~ float_mul_int white n ;; py_int product) = Ok k) \/
  (product <~ float_mul_int white n ;; py_int product) = Raise OverflowError.
Proof.
  intro Hw. unfold float_mul_int.
  destruct (float_of_int_outcome n) as [(f & Ef) | Ef]; rewrite Ef;
    cbn [obind]; [| auto].
  apply float_of_int_sign in Ef. destruct Ef as (_ & Hf).
  apply py_int_outcome. apply b64_mul_finite_not_nan; assumption.
Qed.

Lemma borders_inside img margin box x y :
  roomy img (margin + 1) box ->
  In (x, y) (borders (width img) (height img) margin box) ->
  0 <= x < width img /\ 0 <= y < height img.
Proof.
  intros (((Hx & Hy) & Hc) & _ & Hw & Hh) Hin.
  unfold within_canvas in Hc. unfold box_width, box_height in Hw, Hh.
  apply in_borders in Hin.
  rewrite in_bottom_strip, in_top_strip, in_left_strip, in_right_strip in Hin.
  lia.
Qed.

Lemma roomy_same_size img img' d box :
  width img' = width img -> height img' = height img ->
  roomy img d box -> roomy img' d box.
Proof.
  intros Hw Hh. unfold roomy, sound_box, within_canvas.
  rewrite Hw, Hh. tauto.
Qed.

Lemma borderize_total margin boxes img :
  Forall (roomy img (margin + 1)) boxes ->
  exists img', borderize margin boxes img = (Ok tt, img').
Proof.
  intro Hall. rewrite borderize_unfold. apply write_all_total.
  intros x y Hin. unfold border_coordinates in Hin.
  apply in_flat_map in Hin. destruct Hin as (box & Hbox & Hin).
  rewrite Forall_forall in Hall.
  apply (borders_inside img margin box); [apply Hall; exact Hbox | exact Hin].
Qed.

Lemma colorize_outcome white s m e boxes img rng :
  finite_float white ->
  Forall (fun box => within_canvas img box /\ 0 < sampler box) boxes ->
  (exists img' rng',
      colorize white (S754_finite s m e) boxes (img, rng)
      = (Ok tt, (img', rng')) /\
      width img' = width img /\ height img' = height img) \/
  (exists w,
      colorize white (S754_finite s m e) boxes (img, rng)
      = (Raise OverflowError, w)).
Proof.
  intros Hwhite Hsamp. unfold colorize.
  destruct (whitened_outcome white (len boxes) Hwhite) as [(k & Ek) | Ek].
  - assert (E0 : lift (product <~ float_mul_int white (len boxes) ;;
                       py_int product) (img, rng) = (Ok k, (img, rng))).
    { unfold lift. rewrite Ek. reflexivity. }
    rewrite (bind_ok_step _ _ _ _ _ E0).
    assert (E1 : the_image (img, rng) = (Ok img, (img, rng)))
      by reflexivity.
    rewrite (bind_ok_step _ _ _ _ _ E1).
    destruct (choose_colors_outcome img k s m e boxes Hsamp 0 rng)
      as (o & r1 & Ecol & Ho).
    destruct Ho as [(colors & ->) | ->].
    + assert (E2 : on_rng (choose_colors img k (S754_finite s m e) 0 boxes)
                     (img, rng) = (Ok colors, (img, r1))).
      { unfold on_rng. cbn [fst snd]. rewrite Ecol. reflexivity. }
      rewrite (bind_ok_step _ _ _ _ _ E2).
      pose proof (choose_colors_ok _ _ _ _ _ _ _ _ Ecol) as (Hmap & _).
      destruct (paint_all_total colors img) as (img1 & Epaint).
      { rewrite Forall_forall. intros [box color] Hin. cbn [fst].
        assert (Hb : In box boxes).
        { rewrite <- Hmap. apply in_map_iff. exists (box, color). auto. }
        rewrite Forall_forall in Hsamp. exact (proj1 (Hsamp box Hb)). }
      pose proof (paint_all_ok _ _ _ Epaint) as (Hw1 & Hh1 & _).
      left. exists img1, r1. split; [| split; assumption].
      unfold on_image. cbn [fst snd]. rewrite Epaint. reflexivity.
    + assert (E2 : on_rng (choose_colors img k (S754_finite s m e) 0 boxes)
                     (img, rng) = (Raise OverflowError, (img, r1))).
      { unfold on_rng. cbn [fst snd]. rewrite Ecol. reflexivity. }
      right. rewrite (bind_raise_step _ _ _ _ _ E2). eauto.
  - assert (E0 : lift (product <~ float_mul_int white (len boxes) ;;
                       py_int product) (img, rng)
                 = (Raise OverflowError, (img, rng))).
    { unfold lift. rewrite Ek. reflexivity. }
    right. rewrite (bind_raise_step _ _ _ _ _ E0). eauto.
Qed.

(** The margins [main] derives from the size of an image of at least
    40 x 40 pixels. *)
Lemma main_margins w h :
  40 <= w -> 40 <= h ->
  4 <= minWidth w h /\ marginWidth w h + 2 <= minWidth w h /\
  0 <= marginWidth w h /\
  marginWidth w h + 1 <= w /\ marginWidth w h + 1 <= h.
Proof.
  intros Hw Hh.
  assert (Hm : 40 <= Z.min w h) by lia.
  assert (Hle : Z.min w h <= w /\ Z.min w h <= h) by lia.
  unfold minWidth, marginWidth.
  set (m := Z.min w h) in *.
  assert (H200 : m / 200 = m / 10 / 20)
    by (rewrite Z.div_div by lia; reflexivity).
  assert (H4 : 4 <= m / 10) by (apply Z.div_le_lower_bound; lia).
  assert (Hq : 20 * (m / 10 / 20) <= m / 10) by (apply Z.mul_div_le; lia).
  assert (Hq0 : 0 <= m / 10 / 20) by (apply Z.div_pos; lia).
  assert (H10 : 10 * (m / 10) <= m) by (apply Z.mul_div_le; lia).
  rewrite H200. lia.
Qed.

(** X12. Recolouring and bordering with the parameters of [main].  On an
    image of at least 40 x 40 pixels the minimum edge [main] derives is at
    least four and exceeds the border margin by two or more, and the
    canvas is a box every generation can work on (so each generation
    keeps its boxes at least [margin + 1] pixels wide and high, on the
    canvas).  On any list of such boxes, with a whitening proportion that
    is a number and a finite grain other than zero, [colorize] followed by
    [borderize] raises no [IndexError], no [ZeroDivisionError] and no
    [ValueError]: the run returns, or the float arithmetic of the
    recolourer overflows. *)
Theorem recolouring_raises_only_overflow :
  (forall img : Image,
      40 <= width img -> 40 <= height img ->
      let margin := marginWidth (width img) (height img) in
      let edges := minWidth (width img) (height img) in
      4 <= edges /\ margin + 1 <= edges - 1 /\
      roomy img (margin + 1) (canvas img)) /\
  (forall (white : float) s m e (margin : Z) (boxes : list Box)
          (img : Image) (rng : Rng),
      finite_float white ->
      Forall (roomy img (margin + 1)) boxes ->
      let run :=
        (colorize white (S754_finite s m e) boxes ;;;
         on_image (borderize margin boxes)) (img, rng) in
      fst run = Ok tt \/ fst run = Raise OverflowError).
Proof.
  split.
  - intros img Hw Hh margin edges.
    destruct (main_margins (width img) (height img) Hw Hh)
      as (H4 & H2 & H0 & Hmw & Hmh).
    fold margin in H2, H0, Hmw, Hmh. fold edges in H4, H2.
    split; [exact H4 |]. split; [lia |].
    apply canvas_roomy; lia.
  - intros white s m e margin boxes img rng Hwhite Hroomy run.
    assert (Hsamp : Forall (fun box => within_canvas img box /\
                                       0 < sampler box) boxes).
    { eapply Forall_impl; [| exact Hroomy]. intros box Hbox.
      split; [exact (proj2 (proj1 Hbox)) |].
      apply (roomy_sampler_pos img (margin + 1)). exact Hbox. }
    destruct (colorize_outcome white s m e boxes img rng Hwhite Hsamp)
      as [(img1 & r1 & Ec & Hw1 & Hh1) | (w & Ec)].
    + destruct (borderize_total margin boxes img1) as (img2 & Eborder).
      { eapply Forall_impl; [| exact Hroomy]. intros box Hbox.
        apply (roomy_same_size img img1); assumption. }
      left. unfold run. rewrite (bind_ok_step _ _ _ _ _ Ec).
      unfold on_image. cbn [fst snd]. rewrite Eborder. reflexivity.
    + right. unfold run. rewrite (bind_raise_step _ _ _ _ _ Ec). reflexivity.
Qed.

Lemma recolouring_raises_only_overflow_witness :
  (4 <= minWidth 40 40 /\ marginWidth 40 40 + 1 <= minWidth 40 40 - 1 /\
   roomy img4040 (marginWidth 40 40 + 1) (canvas img4040)) /\
  let run :=
    (colorize (b64_of_Q (1 # 10)) (b64_of_Q 32) [canvas img4040] ;;;
     on_image (borderize 0 [canvas img4040])) (img4040, scripted [3; 1; 4]) in
  fst run = Ok tt \/ fst run = Raise OverflowError.
Proof.
  destruct recolouring_raises_only_overflow as (Hmain & Hrun).
  assert (Hc : 4 <= minWidth 40 40 /\
               marginWidth 40 40 + 1 <= minWidth 40 40 - 1 /\
               roomy img4040 (marginWidth 40 40 + 1) (canvas img4040)).
  { apply (Hmain img4040); simpl; lia. }
  split; [exact Hc |].
  change (b64_of_Q 32) with (S754_finite false 4503599627370496 (-47)).
  apply (Hrun (b64_of_Q (1 # 10)) false 4503599627370496%positive (-47) 0
           [canvas img4040] img4040 (scripted [3; 1; 4])).
  - exact I.
  - apply Forall_cons; [exact (proj2 (proj2 Hc)) | apply Forall_nil].
Defined.

(** ** Recolouring a partition *)

Lemma reaches_iff img l x y :
  reaches img l x y = true <->
  exists xy, In xy l /\ locate img xy = Some (x, y).
Proof.
  unfold reaches. rewrite existsb_exists. split.
  - intros (xy & Hin & Ht). exists xy. split; [exact Hin |].
    destruct (locate img xy) as [[x' y'] |]; [| discriminate].
    apply andb_true_iff in Ht. destruct Ht as (Ex & Ey).
    apply Z.eqb_eq in Ex, Ey. subst. reflexivity.
  - intros (xy & Hin & El). exists xy. split; [exact Hin |].
    rewrite El, !Z.eqb_refl. reflexivity.
Qed.

Lemma reaches_box img box x y :
  within_canvas img box ->
  (reaches img (box_coordinates box) x y = true <-> in_box box x y).
Proof.
  intro Hc. unfold within_canvas in Hc. rewrite reaches_iff. split.
  - intros ([a b] & Hin & El). apply in_box_coordinates in Hin.
    rewrite locate_inside in El by (unfold in_box in Hin; lia).
    inversion El; subst. exact Hin.
  - intro Hin. exists (x, y). split; [apply in_box_coordinates; exact Hin |].
    apply locate_inside; unfold in_box in Hin; lia.
Qed.

(** X13. Recolouring a valid partition: when the recolourer returns, each
    box has become one flat colour, the one chosen for it (every pixel of
    the box has it), and every pixel of the canvas has the colour chosen
    for the box that contains it. *)
Theorem colorize_flattens_partition (white contrast : float)
  (boxes : list Box) (img : Image) (rng : Rng) img' rng' :
  valid_partition img boxes ->
  colorize white contrast boxes (img, rng) = (Ok tt, (img', rng')) ->
  exists colors,
    map fst colors = boxes /\
    (forall i box color x y,
        nth_error colors i = Some (box, color) ->
        in_box box x y -> pixels img' x y = color) /\
    (forall x y,
        on_canvas img x y ->
        exists box color,
          In (box, color) colors /\ in_box box x y /\
          pixels img' x y = color).
Proof.
  intros (Hwithin & Hcover & Hdisj) H. apply colorize_ok in H.
  destruct H as (count & k & colors & _ & _ & Hcolors & Hpaint).
  apply choose_colors_ok in Hcolors. destruct Hcolors as (Hmap & _).
  apply paint_all_ok in Hpaint. destruct Hpaint as (_ & _ & Hpix).
  rewrite Forall_forall in Hwithin.
  assert (Hbox : forall j b c, nth_error colors j = Some (b, c) ->
                               nth_error boxes j = Some b).
  { intros j b c Hj. rewrite <- Hmap.
    apply (map_nth_error fst) in Hj. exact Hj. }
  assert (Hflat : forall i box color x y,
             nth_error colors i = Some (box, color) ->
             in_box box x y -> pixels img' x y = color).
  { intros i box color x y Hnth Hin. rewrite Hpix.
    apply (last_writer_at img colors x y i box color).
    - exact Hnth.
    - apply reaches_box; [| exact Hin].
      apply Hwithin. eapply nth_error_In. apply (Hbox _ _ _ Hnth).
    - intros j box' color' Hlt Hj.
      destruct (reaches img (box_coordinates box') x y) eqn:E;
        [| reflexivity].
      exfalso. apply reaches_box in E.
      + apply (Hdisj i j box box' x y Hlt (Hbox _ _ _ Hnth) (Hbox _ _ _ Hj)).
        split; assumption.
      + apply Hwithin. eapply nth_error_In. apply (Hbox _ _ _ Hj). }
  exists colors. split; [exact Hmap |]. split; [exact Hflat |].
  intros x y Hon. apply Hcover in Hon. destruct Hon as (box & Hb & Hin).
  rewrite <- Hmap in Hb. apply in_map_iff in Hb.
  destruct Hb as ([b c] & Eb & Hentry). simpl in Eb. subst b.
  exists box, c. split; [exact Hentry |]. split; [exact Hin |].
  apply In_nth_error in Hentry. destruct Hentry as (i & Hi).
  apply (Hflat i box c x y Hi Hin).
Qed.

Lemma colorize_flattens_partition_witness :
  let out :=
    snd (colorize (b64_of_Q (1 # 2)) (b64_of_Q 32) pixel_boxes
           (img31, scripted [])) in
  exists colors,
    map fst colors = pixel_boxes /\
    (forall i box color x y,
        nth_error colors i = Some (box, color) ->
        in_box box x y -> pixels (fst out) x y = color) /\
    (forall x y,
        on_canvas img31 x y ->
        exists box color,
          In (box, color) colors /\ in_box box x y /\
          pixels (fst out) x y = color).
Proof.
  intro out.
  apply (colorize_flattens_partition (b64_of_Q (1 # 2)) (b64_of_Q 32)
           pixel_boxes img31 (scripted []) (fst out) (snd out)).
  - apply valid_partition_of_count.
    + unfold pixel_boxes.
      repeat (apply Forall_cons;
              [unfold sound_box, nonempty, within_canvas; simpl; lia |]).
      apply Forall_nil.
    + intros x y (Hx & Hy). simpl in Hx, Hy.
      assert (Ey : y = 0) by lia.
      assert (Ex : x = 0 \/ x = 1 \/ x = 2) by lia.
      destruct Ex as [-> | [-> | ->]]; subst y; reflexivity.
  - reflexivity.
Defined.

(** ** Borders: repetition and order *)

Lemma write_all_located color l :
  forall img img',
    forM_ (fun xy => putpixel xy color) l img = (Ok tt, img') ->
    forall xy, In xy l -> exists p, locate img xy = Some p.
Proof.
  induction l as [| xy0 l IH]; intros img img' H xy Hin.
  - contradiction.
  - cbn [forM_] in H. bind_inv H as u img1 Hput.
    assert (Hsize : width img1 = width img /\ height img1 = height img /\
                    exists p, locate img xy0 = Some p).
    { unfold putpixel in Hput.
      destruct (locate img xy0) as [[x y] |]; [| discriminate].
      inversion Hput; subst. simpl. eauto. }
    destruct Hsize as (Hw & Hh & Hp). destruct Hin as [<- | Hin].
    + exact Hp.
    + rewrite <- (locate_same_size img img1 xy Hw Hh).
      apply (IH img1 img' H xy Hin).
Qed.

Lemma write_all_located_total color l :
  forall img,
    (forall xy, In xy l -> exists p, locate img xy = Some p) ->
    exists img', forM_ (fun xy => putpixel xy color) l img = (Ok tt, img').
Proof.
  induction l as [| xy0 l IH]; intros img Hloc.
  - eexists. reflexivity.
  - destruct (Hloc xy0 (or_introl eq_refl)) as ([x y] & El).
    cbn [forM_].
    assert (E : exists img1, putpixel xy0 color img = (Ok tt, img1) /\
                             width img1 = width img /\
                             height img1 = height img).
    { unfold putpixel. rewrite El. eexists.
      split; [reflexivity |]. split; reflexivity. }
    destruct E as (img1 & E1 & Hw & Hh).
    rewrite (bind_ok_step _ _ _ _ _ E1). apply IH.
    intros xy Hin. rewrite (locate_same_size img img1 xy Hw Hh).
    apply Hloc. right. exact Hin.
Qed.

Lemma border_coordinates_same_size img img' margin boxes :
  width img' = width img -> height img' = height img ->
  border_coordinates img' margin boxes = border_coordinates img margin boxes.
Proof. intros Hw Hh. unfold border_coordinates. rewrite Hw, Hh. reflexivity. Qed.

Lemma reaches_same_members img l l' x y :
  (forall xy, In xy l <-> In xy l') ->
  reaches img l x y = reaches img l' x y.
Proof.
  intro Hmem.
  destruct (reaches img l x y) eqn:E1; destruct (reaches img l' x y) eqn:E2;
    try reflexivity; exfalso.
  - apply reaches_iff in E1. destruct E1 as (xy & Hin & El).
    assert (E : reaches img l' x y = true).
    { apply reaches_iff. exists xy. split; [apply Hmem; exact Hin | exact El]. }
    congruence.
  - apply reaches_iff in E2. destruct E2 as (xy & Hin & El).
    assert (E : reaches img l x y = true).
    { apply reaches_iff. exists xy. split; [apply Hmem; exact Hin | exact El]. }
    congruence.
Qed.

(** X14. Rendering the borders a second time changes nothing: after a
    successful run, a second run with the same margin and boxes succeeds
    and leaves every pixel as the first run left it. *)
Theorem borderize_idempotent (margin : Z) (boxes : list Box) (img img1 : Image) :
  borderize margin boxes img = (Ok tt, img1) ->
  exists img2,
    borderize margin boxes img1 = (Ok tt, img2) /\
    width img2 = width img1 /\ height img2 = height img1 /\
    forall x y, pixels img2 x y = pixels img1 x y.
Proof.
  intro H. rewrite borderize_unfold in H.
  pose proof (write_all_located _ _ _ _ H) as Hloc.
  apply write_all_ok in H. destruct H as (Hw & Hh & Hp).
  destruct (write_all_located_total black
              (border_coordinates img1 margin boxes) img1) as (img2 & E2).
  { intros xy Hin.
    rewrite (border_coordinates_same_size img img1) in Hin by assumption.
    rewrite (locate_same_size img img1 xy Hw Hh). apply Hloc. exact Hin. }
  exists img2. rewrite borderize_unfold. split; [exact E2 |].
  apply write_all_ok in E2. destruct E2 as (Hw2 & Hh2 & Hp2).
  split; [exact Hw2 |]. split; [exact Hh2 |].
  intros x y. rewrite Hp2.
  rewrite (border_coordinates_same_size img img1) by assumption.
  rewrite (reaches_same_size img img1) by assumption.
  rewrite Hp.
  destruct (reaches img (border_coordinates img margin boxes) x y);
    reflexivity.
Qed.

Lemma borderize_idempotent_witness :
  let once := snd (borderize 1 [mkBox 9 0 0 4; mkBox 9 0 5 9] img1010) in
  exists img2,
    borderize 1 [mkBox 9 0 0 4; mkBox 9 0 5 9] once = (Ok tt, img2) /\
    width img2 = width once /\ height img2 = height once /\
    forall x y, pixels img2 x y = pixels once x y.
Proof.
  intro once.
  apply (borderize_idempotent 1 [mkBox 9 0 0 4; mkBox 9 0 5 9] img1010 once).
  reflexivity.
Defined.

(** X15. The order of the boxes does not matter to the borders: when the
    renderer succeeds on a sequence of boxes, it succeeds on every
    permutation of it and leaves the same pixels. *)
Theorem borderize_order_irrelevant (margin : Z) (boxes boxes' : list Box)
  (img img1 : Image) :
  Permutation boxes boxes' ->
  borderize margin boxes img = (Ok tt, img1) ->
  exists img2,
    borderize margin boxes' img = (Ok tt, img2) /\
    forall x y, pixels img2 x y = pixels img1 x y.
Proof.
  intros Hperm H. rewrite borderize_unfold in H.
  assert (Hmem : forall xy, In xy (border_coordinates img margin boxes) <->
                            In xy (border_coordinates img margin boxes')).
  { intro xy. unfold border_coordinates. rewrite !in_flat_map.
    split; intros (box & Hb & Hin); exists box; split; try exact Hin.
    - apply (Permutation_in _ Hperm). exact Hb.
    - apply (Permutation_in _ (Permutation_sym Hperm)). exact Hb. }
  pose proof (write_all_located _ _ _ _ H) as Hloc.
  apply write_all_ok in H. destruct H as (_ & _ & Hp).
  destruct (write_all_located_total black
              (border_coordinates img margin boxes') img) as (img2 & E2).
  { intros xy Hin. apply Hloc. apply Hmem. exact Hin. }
  exists img2. rewrite borderize_unfold. split; [exact E2 |].
  apply write_all_ok in E2. destruct E2 as (_ & _ & Hp2).
  intros x y. rewrite Hp2, Hp.
  rewrite (reaches_same_members img _ _ x y Hmem). reflexivity.
Qed.

Lemma borderize_order_irrelevant_witness :
  exists img2,
    borderize 1 [mkBox 9 0 5 9; mkBox 9 0 0 4] img1010 = (Ok tt, img2) /\
    forall x y,
      pixels img2 x y =
      pixels (snd (borderize 1 [mkBox 9 0 0 4; mkBox 9 0 5 9] img1010)) x y.
Proof.
  apply (borderize_order_irrelevant 1 [mkBox 9 0 0 4; mkBox 9 0 5 9]
           [mkBox 9 0 5 9; mkBox 9 0 0 4] img1010).
  - apply perm_swap.
  - reflexivity.
Defined.

(** ** Order and repetition of the quantization *)






(** ** Randomness spent by the recolourer *)

Lemma choose_colors_draws img whitened contrast boxes :
  forall i rng colors rng',
    choose_colors img whitened contrast i boxes rng = (Ok colors, rng') ->
    draws rng' = draws rng /\
    used rng' =
    (used rng + 2 * list_sum (map (fun b => Z.to_nat (sampler b)) boxes))%nat.
Proof.
  induction boxes as [| box rest IH]; intros i rng colors rng' H.
  - simpl in H. run_inv H. simpl. split; [reflexivity | lia].
  - cbn [choose_colors] in H.
    bind_inv H as avg s1 Havg. bind_inv H as c s2 Hc.
    bind_inv H as more s3 Hrec. run_inv H.
    apply average_ok in Havg.
    destruct Havg as (_ & _ & _ & _ & Hd1 & Hu1).
    assert (Es : s2 = s1).
    { destruct (i <? whitened); run_inv Hc; reflexivity. }
    subst s2. apply IH in Hrec. destruct Hrec as (Hd2 & Hu2).
    split; [congruence |]. cbn [map].
    change (list_sum (?a :: ?l)) with (a + list_sum l)%nat. lia.
Qed.

(** X17. The recolourer samples every box, whitened or not: when it
    returns, it has consumed two raw draws per sample of every box of the
    partition, whatever the whitening proportion and the grain. *)
Theorem colorize_samples_every_box (white contrast : float)
  (boxes : list Box) (img : Image) (rng : Rng) img' rng' :
  colorize white contrast boxes (img, rng) = (Ok tt, (img', rng')) ->
  draws rng' = draws rng /\
  used rng' =
  (used rng + 2 * list_sum (map (fun b => Z.to_nat (sampler b)) boxes))%nat.
Proof.
  intro H. apply colorize_ok in H.
  destruct H as (count & k & colors & _ & _ & Hcolors & _).
  apply (choose_colors_draws _ _ _ _ _ _ _ _ Hcolors).
Qed.

Lemma colorize_samples_every_box_witness :
  let out :=
    snd (colorize (b64_of_Q 1) (b64_of_Q 32) pixel_boxes
           (img31, scripted [])) in
  draws (snd out) = draws (scripted []) /\
  used (snd out) = 6%nat.
Proof.
  intro out.
  apply (colorize_samples_every_box (b64_of_Q 1) (b64_of_Q 32) pixel_boxes
           img31 (scripted []) (fst out) (snd out)).
  vm_compute. reflexivity.
Defined.

(** ** The reach of a border *)

(** X18. The border strips of a box stay inside the box when the box is
    at least [margin + 1] pixels wide and high: every coordinate yielded
    for it is a pixel of the box. *)
Theorem borders_stay_in_box (w h margin : Z) (box : Box) (x y : Z) :
  margin + 1 <= box_width box -> margin + 1 <= box_height box ->
  In (x, y) (borders w h margin box) -> in_box box x y.
Proof.
  unfold box_width, box_height, in_box. intros Hw Hh Hin.
  apply in_borders in Hin.
  rewrite in_bottom_strip, in_top_strip, in_left_strip, in_right_strip in Hin.
  lia.
Qed.

Lemma borders_stay_in_box_witness : in_box (mkBox 9 0 0 4) 3 7.
Proof.
  apply (borders_stay_in_box 10 10 1 (mkBox 9 0 0 4) 3 7).
  - unfold box_width. simpl. lia.
  - unfold box_height. simpl. lia.
  - vm_compute. tauto.
Defined.
